(** * WIPC: frame codec and stream demultiplexer

    A shallow embedding of the two implementations of the WIPC wire
    protocol:

    - the AssemblyScript guest codec of [assembly/index.ts]
      ([encode], [decode]), in module [Guest];
    - the Node.js host [Channel] class ([send], [onData], [handleFrame]),
      in module [Host].

    Buffers ([ArrayBuffer], [Uint8Array], Node's [Buffer]) are lists of
    bytes.  Machine integers are [Z] with the wrap-around of each cast
    written out. *)

From Stdlib Require Import ZArith List Lia Bool.
From Stdlib Require Import Strings.Byte.
Import ListNotations.

Local Open Scope Z_scope.

(** ** Bytes and machine integers *)

Definition bytes := list byte.

Definition byte_to_Z (b : byte) : Z := Z.of_N (Byte.to_N b).

(** The byte whose value is [z mod 256] (a [u8] store of [z]). *)
Definition Z_to_byte (z : Z) : byte :=
  match Byte.of_N (Z.to_N (z mod 256)) with
  | Some b => b
  | None => x00
  end.

(** [<u32>z] and [<i32>z]. *)
Definition u32 (z : Z) : Z := z mod 4294967296.
Definition i32 (z : Z) : Z := (z + 2147483648) mod 4294967296 - 2147483648.

(** [.length] of a buffer. *)
Definition len (b : bytes) : Z := Z.of_nat (length b).

(** Code that either returns a value or throws. *)
Inductive outcome (E A : Type) : Type :=
| Returns (a : A)
| Throws (e : E).
Arguments Returns {E A} a.
Arguments Throws {E A} e.

(** Writing one byte at an offset; a write outside the buffer is not
    modelled and leaves the list as it is. *)
Fixpoint store_u8 (buf : bytes) (off : nat) (v : byte) : bytes :=
  match buf, off with
  | [], _ => []
  | _ :: tl, O => v :: tl
  | b :: tl, S n => b :: store_u8 tl n v
  end.

(** The four little-endian bytes of an unsigned 32-bit value. *)
Definition le32 (v : Z) : bytes :=
  [Z_to_byte v; Z_to_byte (Z.shiftr v 8);
   Z_to_byte (Z.shiftr v 16); Z_to_byte (Z.shiftr v 24)].

Fixpoint store_bytes (buf : bytes) (off : nat) (vs : bytes) : bytes :=
  match vs with
  | [] => buf
  | v :: vs' => store_bytes (store_u8 buf off v) (S off) vs'
  end.

Definition load_u8 (buf : bytes) (off : nat) : Z := byte_to_Z (nth off buf x00).

(** An unsigned 32-bit little-endian load. *)
Definition load_u32 (buf : bytes) (off : nat) : Z :=
  load_u8 buf off
  + load_u8 buf (off + 1) * 256
  + load_u8 buf (off + 2) * 65536
  + load_u8 buf (off + 3) * 16777216.

(** [subarray(start, end)] for [0 <= start]; [end] is clamped to the
    length as in JavaScript, and an [end] below [start] gives the empty
    view. *)
Definition subarray (buf : bytes) (start stop : Z) : bytes :=
  firstn (Z.to_nat (stop - start)) (skipn (Z.to_nat start) buf).

(** [subarray(start)]. *)
Definition subarray_from (buf : bytes) (start : Z) : bytes :=
  skipn (Z.to_nat start) buf.

(** ** The message types *)

Module MessageType.
Definition OPEN : Z := 0.
Definition CLOSE : Z := 1.
Definition CALL : Z := 2.
Definition DATA : Z := 3.
End MessageType.

(** ** The AssemblyScript guest codec ([assembly/index.ts]) *)

Module Guest.

Definition MAGIC_W : byte := x57.
Definition MAGIC_I : byte := x49.
Definition MAGIC_P : byte := x50.
Definition MAGIC_C : byte := x43.
Definition HEADER_SIZE : Z := 9.

(** The four magic bytes in the order [decode] compares them. *)
Definition MAGIC : bytes := [MAGIC_W; MAGIC_I; MAGIC_P; MAGIC_C].

Record Frame : Type := mkFrame { type : Z; payload : bytes }.

(** The bounds of the AssemblyScript runtime on the size of an
    allocation: [BLOCK_MAXSIZE] is [(1 << 30) - BLOCK_OVERHEAD], and
    [OBJECT_MAXSIZE] is [BLOCK_MAXSIZE - OBJECT_OVERHEAD]. *)
Definition BLOCK_MAXSIZE : Z := 1073741820.
Definition OBJECT_MAXSIZE : Z := 1073741804.

(** What the codec throws: the [RangeError] of a constructor given an
    invalid length, and the allocator's error on an allocation that is
    too large. *)
Inductive exn : Type := RangeError | AllocationTooLarge.

(** [new ArrayBuffer(length)] and [new Uint8Array(length)] take an
    [i32].  The constructor throws a [RangeError] on a length that is,
    as a [u32], above [BLOCK_MAXSIZE] (every negative length is), and
    the allocator then refuses an object of [OBJECT_MAXSIZE] bytes or
    more.  The exhaustion of memory by smaller allocations is not
    modelled. *)
Definition new_ArrayBuffer (length : Z) : outcome exn bytes :=
  if BLOCK_MAXSIZE <? u32 length then Throws RangeError
  else if OBJECT_MAXSIZE <=? u32 length then Throws AllocationTooLarge
  else Returns (repeat x00 (Z.to_nat (u32 length))).

Definition new_Uint8Array (length : Z) : outcome exn bytes :=
  new_ArrayBuffer length.

(** [memory.copy(dst + doff, src + soff, n)]. *)
Definition memory_copy (dst : bytes) (doff : nat) (src : bytes) (soff : nat)
  (n : Z) : bytes :=
  store_bytes dst doff (firstn (Z.to_nat n) (skipn soff src)).

(** [encode(type, payload)]; [payload] is [None] for [null].  The
    length of a [Uint8Array] is an [i32]. *)
Definition encode (type : Z) (payload : option bytes) : outcome exn bytes :=
  let payloadLen := match payload with Some p => i32 (len p) | None => 0 end in
  match new_ArrayBuffer (u32 (HEADER_SIZE + payloadLen)) with
  | Throws e => Throws e
  | Returns buf =>
    let buf := store_u8 buf 0 MAGIC_W in
    let buf := store_u8 buf 1 MAGIC_I in
    let buf := store_u8 buf 2 MAGIC_P in
    let buf := store_u8 buf 3 MAGIC_C in
    let buf := store_u8 buf 4 (Z_to_byte type) in
    let buf := store_bytes buf 5 (le32 (u32 payloadLen)) in
    let buf :=
      match payload with
      | Some p =>
        if payloadLen >? 0 then memory_copy buf 9 p 0 payloadLen else buf
      | None => buf
      end in
    Returns buf
  end.

(** [decode(data)]; the result [None] is [null]. *)
Definition decode (data : bytes) : outcome exn (option Frame) :=
  if u32 (len data) <? HEADER_SIZE then Returns None
  else if negb (Byte.eqb (nth 0 data x00) MAGIC_W)
       || negb (Byte.eqb (nth 1 data x00) MAGIC_I)
       || negb (Byte.eqb (nth 2 data x00) MAGIC_P)
       || negb (Byte.eqb (nth 3 data x00) MAGIC_C)
  then Returns None
  else
    let type := load_u8 data 4 in
    let len_ := load_u32 data 5 in
    if u32 (len data) <? u32 (HEADER_SIZE + len_) then Returns None
    else
      match new_Uint8Array (i32 len_) with
      | Throws e => Throws e
      | Returns payload =>
        let payload :=
          if len_ >? 0 then memory_copy payload 0 data 9 len_ else payload in
        Returns (Some (mkFrame type payload))
      end.

(** [decode(encode(type, payload))], an exception of [encode] being
    passed on. *)
Definition roundtrip (type : Z) (payload : bytes)
  : outcome exn (option Frame) :=
  match encode type (Some payload) with
  | Throws e => Throws e
  | Returns buf => decode buf
  end.

End Guest.

(** ** The Node.js host channel ([Channel]) *)

Module Host.

(** [Buffer.from("WIPC")]. *)
Definition MAGIC : bytes := [x57; x49; x50; x43].
Definition HEADER_SIZE : Z := 9.

Inductive exn : Type :=
| ERR_OUT_OF_RANGE
| SyntaxError
| UnknownFrameType (type : Z).

Fixpoint starts_with (needle buf : bytes) : bool :=
  match needle, buf with
  | [], _ => true
  | _ :: _, [] => false
  | n :: needle', b :: buf' => Byte.eqb n b && starts_with needle' buf'
  end.

(** [buf.indexOf(needle)]: the offset of the first occurrence, or [-1]. *)
Fixpoint indexOf (buf needle : bytes) : Z :=
  if starts_with needle buf then 0
  else
    match buf with
    | [] => -1
    | _ :: buf' =>
      let i := indexOf buf' needle in
      if i =? -1 then -1 else i + 1
    end.

(** Reads inside the buffer; [onData] checks the length first. *)
Definition readUInt8 (buf : bytes) (offset : nat) : Z := load_u8 buf offset.
Definition readUInt32LE (buf : bytes) (offset : nat) : Z := load_u32 buf offset.

(** [send(type, payload)]: the bytes written to the output.
    [writeUInt8] and [writeUInt32LE] throw on a value out of range. *)
Definition send (type : Z) (payload : option bytes) : outcome exn bytes :=
  let body := match payload with Some p => p | None => [] end in
  let header := repeat x00 (Z.to_nat HEADER_SIZE) in
  let header := store_bytes header 0 MAGIC in
  if (type <? 0) || (255 <? type) then Throws ERR_OUT_OF_RANGE
  else
    let header := store_u8 header 4 (Z_to_byte type) in
    if (len body <? 0) || (4294967295 <? len body) then Throws ERR_OUT_OF_RANGE
    else
      let header := store_bytes header 5 (le32 (len body)) in
      Returns (header ++ body).

Section Dispatch.

(** [JSON.parse(payload.toString("utf8"))] is taken as given: the type
    of parsed values, and a parser that is [None] where [JSON.parse]
    throws a [SyntaxError]. *)
Variable json : Type.
Variable JSON_parse : bytes -> option json.

(** The protected callbacks a subclass overrides, as the trace of the
    calls made. *)
Inductive callback : Type :=
| onPassthrough (data : bytes)
| onOpen
| onClose
| onCall (msg : json)
| onDataMessage (data : bytes).

Definition handleFrame (type : Z) (payload : bytes) : outcome exn callback :=
  if type =? MessageType.OPEN then Returns onOpen
  else if type =? MessageType.CLOSE then Returns onClose
  else if type =? MessageType.CALL then
    match JSON_parse payload with
    | Some msg => Returns (onCall msg)
    | None => Throws SyntaxError
    end
  else if type =? MessageType.DATA then Returns (onDataMessage payload)
  else Throws (UnknownFrameType type).

(** What one or more calls of [onData] leave behind: the accumulator
    [this.buffer], the callbacks invoked in order, and the exception
    that ended the call, if any. *)
Record run : Type := mkRun {
  buffer : bytes;
  calls : list callback;
  thrown : option exn
}.

Definition after (cs : list callback) (r : run) : run :=
  mkRun (buffer r) (cs ++ calls r) (thrown r).

(** One pass through the body of the [while (true)] loop of [onData]:
    it either returns, or has removed a frame, dispatched it, and goes
    round again. *)
Inductive iteration : Type :=
| Return (r : run)
| Continue (emitted : list callback) (buffer : bytes).

Definition iterate (buffer : bytes) : iteration :=
  if len buffer =? 0 then Return (mkRun buffer [] None)
  else
    let idx := indexOf buffer MAGIC in
    if idx =? -1 then Return (mkRun [] [onPassthrough buffer] None)
    else
      let emitted :=
        if idx >? 0 then [onPassthrough (subarray buffer 0 idx)] else [] in
      let buffer := if idx >? 0 then subarray_from buffer idx else buffer in
      if len buffer <? HEADER_SIZE then Return (mkRun buffer emitted None)
      else
        let type := readUInt8 buffer 4 in
        let length := readUInt32LE buffer 5 in
        let frameSize := HEADER_SIZE + length in
        if len buffer <? frameSize then Return (mkRun buffer emitted None)
        else
          let payload := subarray buffer HEADER_SIZE frameSize in
          let buffer := subarray_from buffer frameSize in
          match handleFrame type payload with
          | Throws e => Return (mkRun buffer emitted (Some e))
          | Returns c => Continue (emitted ++ [c]) buffer
          end.

(** The loop.  Every pass that goes round again has removed a frame of
    at least nine bytes, so the length of the buffer bounds the number
    of passes; the result is [None] only when [fuel] runs out. *)
Fixpoint onData_loop (fuel : nat) (buffer : bytes) : option run :=
  match fuel with
  | O => None
  | S fuel' =>
    match iterate buffer with
    | Return r => Some r
    | Continue emitted buffer' =>
      option_map (after emitted) (onData_loop fuel' buffer')
    end
  end.

(** [onData(chunk)] on a channel whose accumulator holds [buffer]. *)
Definition onData (buffer chunk : bytes) : option run :=
  let buffer := buffer ++ chunk in
  onData_loop (S (length buffer)) buffer.

(** The chunks of a stream delivered one [onData] call after the other;
    an exception ends the delivery. *)
Fixpoint feed (held : bytes) (chunks : list bytes) : option run :=
  match chunks with
  | [] => Some (mkRun held [] None)
  | chunk :: chunks' =>
    match onData held chunk with
    | None => None
    | Some r =>
      match thrown r with
      | Some _ => Some r
      | None => option_map (after (calls r)) (feed (buffer r) chunks')
      end
    end
  end.

(** Adjacent passthrough runs merged, for comparing traces. *)
Fixpoint merge (cs : list callback) : list callback :=
  match cs with
  | onPassthrough a :: cs' =>
    match merge cs' with
    | onPassthrough b :: rest => onPassthrough (a ++ b) :: rest
    | rest => onPassthrough a :: rest
    end
  | c :: cs' => c :: merge cs'
  | [] => []
  end.

End Dispatch.

Arguments onPassthrough {json} data.
Arguments onOpen {json}.
Arguments onClose {json}.
Arguments onCall {json} msg.
Arguments onDataMessage {json} data.
Arguments mkRun {json} buffer calls thrown.
Arguments buffer {json} r.
Arguments calls {json} r.
Arguments thrown {json} r.
Arguments after {json} cs r.
Arguments merge {json} cs.
Arguments Return {json} r.
Arguments Continue {json} emitted buffer.
Arguments iterate {json} JSON_parse buffer.
Arguments handleFrame {json} JSON_parse type payload.
Arguments onData_loop {json} JSON_parse fuel buffer.
Arguments onData {json} JSON_parse buffer chunk.
Arguments feed {json} JSON_parse held chunks.

(** The buffer a pass of the loop reads a header from: the accumulator
    from its first magic on. *)
Definition at_magic (b : bytes) : bytes :=
  if indexOf b MAGIC >? 0 then subarray_from b (indexOf b MAGIC) else b.

(** The concrete runs below contain no CALL frame, so the parser is
    never consulted there; they use the parser that accepts no text. *)
Definition no_json : bytes -> option Empty_set := fun _ => None.

(** The frame [send(DATA, "x")] writes. *)
Definition frame_x : bytes :=
  [x57; x49; x50; x43; x03; x01; x00; x00; x00; x78].

End Host.

(** ** The frame helpers of the test suite ([tests/index.js]) *)

Module Tests.

(** [a.equals(b)] on buffers. *)
Fixpoint equals (a b : bytes) : bool :=
  match a, b with
  | [], [] => true
  | x :: a', y :: b' => Byte.eqb x y && equals a' b'
  | _, _ => false
  end.

(** [buildFrame(type, payload)]. *)
Definition buildFrame (type : Z) (payload : option bytes)
  : outcome Host.exn bytes :=
  let body := match payload with Some p => p | None => [] end in
  let header := repeat x00 (Z.to_nat Host.HEADER_SIZE) in
  let header := store_bytes header 0 Host.MAGIC in
  if (type <? 0) || (255 <? type) then Throws Host.ERR_OUT_OF_RANGE
  else
    let header := store_u8 header 4 (Z_to_byte type) in
    if (len body <? 0) || (4294967295 <? len body)
    then Throws Host.ERR_OUT_OF_RANGE
    else
      let header := store_bytes header 5 (le32 (len body)) in
      Returns (header ++ body).

(** [parseFrame(buf)]: the object [{ type, payload }] as a pair, [None]
    for [null]. *)
Definition parseFrame (buf : bytes) : option (Z * bytes) :=
  if len buf <? Host.HEADER_SIZE then None
  else if negb (equals (subarray buf 0 4) Host.MAGIC) then None
  else
    let type := Host.readUInt8 buf 4 in
    let length := Host.readUInt32LE buf 5 in
    if len buf <? Host.HEADER_SIZE + length then None
    else
      let payload :=
        subarray buf Host.HEADER_SIZE (Host.HEADER_SIZE + length) in
      Some (type, payload).

End Tests.

(** ** Reading and writing frames in the guest ([readExact], [readFrame],
    [writeFrame]) and the echo responder ([assembly/test.ts]) *)

Module GuestIO.

(** Standard input as the successive calls of [fd_read] find it: chunks
    of bytes, as the pipe delivers them, and failures with their errno.
    A call takes bytes from the first chunk only, so a read can be
    short; at the end of the list, and on an empty chunk, it reads
    nothing, which is the end of the file. *)
Inductive input : Type :=
| Chunk (data : bytes)
| Fault (errno : Z).

Definition stdin : Type := list input.

Definition SUCCESS : Z := 0.

(** What the guest throws: the exceptions of the codec, and
    [Error(errnoToString(err))] of [readExact]. *)
Inductive exn : Type :=
| Codec (e : Guest.exn)
| ReadError (errno : Z).

(** [fd_read] for at most [want] bytes: the errno, the bytes read, and
    what is left of the input. *)
Definition fd_read (s : stdin) (want : Z) : Z * bytes * stdin :=
  match s with
  | [] => (SUCCESS, [], [])
  | Chunk data :: s' =>
    (SUCCESS, firstn (Z.to_nat want) data,
     match skipn (Z.to_nat want) data with
     | [] => s'
     | unread => Chunk unread :: s'
     end)
  | Fault errno :: s' => (errno, [], s')
  end.

(** Code that reads standard input: it is given the input and fuel for
    its loops, and returns or throws, with the input that is left;
    [None] only when the fuel runs out. *)
Definition io (A : Type) : Type := stdin -> option (outcome exn (A * stdin)).

Definition ret {A : Type} (a : A) : io A := fun s => Some (Returns (a, s)).

Definition bind {A B : Type} (m : io A) (k : A -> io B) : io B :=
  fun s =>
    match m s with
    | None => None
    | Some (Throws e) => Some (Throws e)
    | Some (Returns (a, s')) => k a s'
    end.

Definition throw {A : Type} (e : exn) : io A := fun _ => Some (Throws e).

Definition out_of_fuel {A : Type} : io A := fun _ => None.

(** The loop of [readExact]; every pass that goes round again has read
    at least one byte, so [remaining] bounds the number of passes. *)
Fixpoint readExact_loop (fuel : nat) (buffer : bytes) (pos remaining : Z)
  : io (bool * bytes) :=
  if remaining >? 0 then
    match fuel with
    | O => out_of_fuel
    | S fuel' =>
      fun s =>
        let '(err, got, s') := fd_read s remaining in
        if negb (err =? SUCCESS) then Some (Throws (ReadError err))
        else
          let nread := len got in
          if nread =? 0 then Some (Returns ((false, buffer), s'))
          else
            readExact_loop fuel'
              (store_bytes buffer (Z.to_nat pos) got)
              (pos + nread) (remaining - nread) s'
    end
  else ret (true, buffer).

(** [readExact(STDIN, buffer, offset, length)]: whether the bytes were
    all read, and the buffer as it is left. *)
Definition readExact (buffer : bytes) (offset length : Z)
  : io (bool * bytes) :=
  readExact_loop (Z.to_nat length) buffer offset length.

(** One pass of the [while (true)] loop of [readFrame]: [inl] the value
    returned, [inr] the header buffer to go round again with. *)
Definition readFrame_pass (headerBuf : bytes)
  : io (option Guest.Frame + bytes) :=
  bind (readExact headerBuf 0 1) (fun '(ok, headerBuf) =>
  if negb ok then ret (inl None)
  else if negb (Byte.eqb (nth 0 headerBuf x00) Guest.MAGIC_W)
  then ret (inr headerBuf)
  else
  bind (readExact headerBuf 1 1) (fun '(ok, headerBuf) =>
  if negb ok then ret (inl None)
  else if negb (Byte.eqb (nth 1 headerBuf x00) Guest.MAGIC_I)
  then ret (inr headerBuf)
  else
  bind (readExact headerBuf 2 1) (fun '(ok, headerBuf) =>
  if negb ok then ret (inl None)
  else if negb (Byte.eqb (nth 2 headerBuf x00) Guest.MAGIC_P)
  then ret (inr headerBuf)
  else
  bind (readExact headerBuf 3 1) (fun '(ok, headerBuf) =>
  if negb ok then ret (inl None)
  else if negb (Byte.eqb (nth 3 headerBuf x00) Guest.MAGIC_C)
  then ret (inr headerBuf)
  else
  bind (readExact headerBuf 4 5) (fun '(ok, headerBuf) =>
  if negb ok then ret (inl None)
  else
    let type := load_u8 headerBuf 4 in
    let len_ := load_u32 headerBuf 5 in
    match Guest.new_Uint8Array (i32 len_) with
    | Throws e => throw (Codec e)
    | Returns payload =>
      if len_ >? 0 then
        bind (readExact payload 0 len_) (fun '(ok, payload) =>
        if negb ok then ret (inl None)
        else ret (inl (Some (Guest.mkFrame type payload))))
      else ret (inl (Some (Guest.mkFrame type payload)))
    end))))).

Fixpoint readFrame_loop (fuel : nat) (headerBuf : bytes)
  : io (option Guest.Frame) :=
  match fuel with
  | O => out_of_fuel
  | S fuel' =>
    bind (readFrame_pass headerBuf) (fun r =>
    match r with
    | inl result => ret result
    | inr headerBuf => readFrame_loop fuel' headerBuf
    end)
  end.

(** The bytes the input still holds. *)
Fixpoint pending (s : stdin) : bytes :=
  match s with
  | [] => []
  | Chunk data :: s' => data ++ pending s'
  | Fault _ :: s' => pending s'
  end.

(** [readFrame()].  A pass that goes round again has read a byte, so
    the bytes the input holds bound the number of passes. *)
Definition readFrame : io (option Guest.Frame) :=
  fun s =>
    match Guest.new_ArrayBuffer Guest.HEADER_SIZE with
    | Throws e => Some (Throws (Codec e))
    | Returns headerBuf => readFrame_loop (S (length (pending s))) headerBuf s
    end.

(** [writeFrame(type, payload)]: standard output with the frame
    written to it. *)
Definition writeFrame (stdout : bytes) (type : Z) (payload : option bytes)
  : outcome exn bytes :=
  match Guest.encode type payload with
  | Throws e => Throws (Codec e)
  | Returns buf => Returns (stdout ++ buf)
  end.



(** Input without failures and without empty chunks. *)
Fixpoint clean (s : stdin) : bool :=
  match s with
  | [] => true
  | Chunk [] :: _ => false
  | Chunk _ :: s' => clean s'
  | Fault _ :: _ => false
  end.

End GuestIO.

(** * Properties *)

(** ** Bytes, loads and stores *)

Lemma byte_to_Z_range (b : byte) : 0 <= byte_to_Z b < 256.
Proof.
  unfold byte_to_Z. pose proof (Byte.to_N_bounded b). lia.
Qed.

Lemma byte_to_Z_to_byte (z : Z) : byte_to_Z (Z_to_byte z) = z mod 256.
Proof.
  unfold byte_to_Z, Z_to_byte.
  assert (Hr : 0 <= z mod 256 < 256) by (apply Z.mod_pos_bound; lia).
  destruct (Byte.of_N (Z.to_N (z mod 256))) as [b|] eqn:E.
  - apply Byte.to_of_N in E. rewrite E. lia.
  - apply Byte.of_N_None_iff in E. lia.
Qed.

Lemma le32_value (v : Z) :
  0 <= v < 4294967296 ->
  byte_to_Z (Z_to_byte v)
  + byte_to_Z (Z_to_byte (Z.shiftr v 8)) * 256
  + byte_to_Z (Z_to_byte (Z.shiftr v 16)) * 65536
  + byte_to_Z (Z_to_byte (Z.shiftr v 24)) * 16777216 = v.
Proof.
  intros Hv. rewrite !byte_to_Z_to_byte, !Z.shiftr_div_pow2 by lia.
  change (2 ^ 8) with 256. change (2 ^ 16) with 65536.
  change (2 ^ 24) with 16777216.
  Z.div_mod_to_equations. lia.
Qed.

Lemma len_app (a b : bytes) : len (a ++ b) = len a + len b.
Proof. unfold len. rewrite length_app. lia. Qed.

Lemma len_nonneg (a : bytes) : 0 <= len a.
Proof. unfold len. lia. Qed.

Lemma store_u8_app (pre buf : bytes) (b v : byte) :
  store_u8 (pre ++ b :: buf) (length pre) v = pre ++ v :: buf.
Proof.
  induction pre as [|p pre IH]; simpl; [reflexivity|]. now rewrite IH.
Qed.

Lemma store_bytes_app (vs pre buf : bytes) :
  (length vs <= length buf)%nat ->
  store_bytes (pre ++ buf) (length pre) vs
  = pre ++ vs ++ skipn (length vs) buf.
Proof.
  revert pre buf. induction vs as [|v vs IH]; intros pre buf Hle; simpl.
  - reflexivity.
  - destruct buf as [|b buf]; simpl in Hle; [lia|].
    rewrite store_u8_app.
    replace (S (length pre)) with (length (pre ++ [v]))
      by (rewrite length_app; simpl; lia).
    replace (pre ++ v :: buf) with ((pre ++ [v]) ++ buf)
      by (rewrite <- app_assoc; reflexivity).
    rewrite IH by lia. rewrite <- app_assoc. reflexivity.
Qed.

(** ** The guest codec *)

Lemma i32_small (z : Z) : -2147483648 <= z < 2147483648 -> i32 z = z.
Proof. intros H. unfold i32. rewrite Z.mod_small by lia. lia. Qed.

Lemma u32_small (z : Z) : 0 <= z < 4294967296 -> u32 z = z.
Proof. intros H. unfold u32. apply Z.mod_small. lia. Qed.

(** An allocation below the bound of the allocator succeeds. *)
Lemma new_ArrayBuffer_returns (n : Z) :
  0 <= n < Guest.OBJECT_MAXSIZE ->
  Guest.new_ArrayBuffer n = Returns (repeat x00 (Z.to_nat n)).
Proof.
  unfold Guest.new_ArrayBuffer, Guest.OBJECT_MAXSIZE, Guest.BLOCK_MAXSIZE.
  intros Hn. rewrite u32_small by lia.
  destruct (1073741820 <? n) eqn:E1; [apply Z.ltb_lt in E1; lia|].
  destruct (1073741804 <=? n) eqn:E2; [apply Z.leb_le in E2; lia|].
  reflexivity.
Qed.

Lemma encode_bytes (t : Z) (p : bytes) :
  len p <= 1073741794 ->
  Guest.encode t (Some p)
  = Returns ([x57; x49; x50; x43; Z_to_byte t] ++ le32 (len p) ++ p).
Proof.
  intros Hp. pose proof (len_nonneg p) as H0.
  unfold Guest.encode, Guest.HEADER_SIZE.
  rewrite (i32_small (len p)) by lia.
  rewrite (u32_small (9 + len p)) by lia.
  rewrite (u32_small (len p)) by lia.
  rewrite new_ArrayBuffer_returns by (unfold Guest.OBJECT_MAXSIZE; lia).
  replace (Z.to_nat (9 + len p)) with (9 + length p)%nat by (unfold len; lia).
  rewrite repeat_app.
  unfold le32, Guest.memory_copy, Guest.MAGIC_W, Guest.MAGIC_I, Guest.MAGIC_P, Guest.MAGIC_C.
  cbn [repeat app store_u8 store_bytes skipn].
  destruct (len p >? 0) eqn:Epos.
  - replace (Z.to_nat (len p)) with (length p) by (unfold len; lia).
    rewrite firstn_all.
    pose proof (store_bytes_app p
      ([x57; x49; x50; x43; Z_to_byte t] ++ le32 (len p))
      (repeat x00 (length p))) as H.
    unfold le32 in H. cbn [app length] in H.
    rewrite H by (rewrite repeat_length; lia).
    rewrite skipn_all2 by (rewrite repeat_length; lia).
    rewrite app_nil_r. reflexivity.
  - rewrite Z.gtb_ltb in Epos. apply Z.ltb_ge in Epos.
    assert (p = []) as ->
      by (destruct p; [reflexivity | unfold len in *; simpl length in *; lia]).
    reflexivity.
Qed.

(** A payload that the runtime can hold, and whose frame it cannot. *)
Lemma encode_throws (t : Z) (p : bytes) :
  1073741795 <= len p <= 1073741803 ->
  Guest.encode t (Some p) = Throws Guest.AllocationTooLarge.
Proof.
  intros Hp.
  unfold Guest.encode, Guest.new_ArrayBuffer, Guest.HEADER_SIZE,
    Guest.OBJECT_MAXSIZE, Guest.BLOCK_MAXSIZE.
  rewrite (i32_small (len p)) by lia.
  rewrite !(u32_small (9 + len p)) by lia.
  destruct (1073741820 <? 9 + len p) eqn:E1; [apply Z.ltb_lt in E1; lia|].
  destruct (1073741804 <=? 9 + len p) eqn:E2;
    [reflexivity | apply Z.leb_gt in E2; lia].
Qed.

Lemma load_u8_range (buf : bytes) (off : nat) : 0 <= load_u8 buf off < 256.
Proof. apply byte_to_Z_range. Qed.

Lemma load_u32_range (buf : bytes) (off : nat) :
  0 <= load_u32 buf off < 4294967296.
Proof.
  unfold load_u32.
  pose proof (load_u8_range buf off).
  pose proof (load_u8_range buf (off + 1)).
  pose proof (load_u8_range buf (off + 2)).
  pose proof (load_u8_range buf (off + 3)).
  lia.
Qed.

Lemma head9 (data : bytes) :
  9 <= len data ->
  exists b0 b1 b2 b3 b4 b5 b6 b7 b8 rest,
    data = b0 :: b1 :: b2 :: b3 :: b4 :: b5 :: b6 :: b7 :: b8 :: rest.
Proof.
  unfold len. intros H.
  do 9 (destruct data as [|? data]; [simpl in H; lia|]).
  repeat eexists.
Qed.

Lemma decode_short (data : bytes) :
  len data <= 2147483647 -> len data < 9 -> Guest.decode data = Returns None.
Proof.
  intros Hmax Hlt. pose proof (len_nonneg data).
  unfold Guest.decode, Guest.HEADER_SIZE.
  rewrite u32_small by lia.
  destruct (len data <? 9) eqn:E; [reflexivity|].
  apply Z.ltb_ge in E. lia.
Qed.

Lemma decode_bad_magic (data : bytes) :
  len data <= 2147483647 -> 9 <= len data ->
  firstn 4 data <> Guest.MAGIC ->
  Guest.decode data = Returns None.
Proof.
  intros Hmax Hge Hm.
  destruct (head9 data Hge) as (b0 & b1 & b2 & b3 & b4 & b5 & b6 & b7 & b8 & rest & ->).
  unfold Guest.decode, Guest.HEADER_SIZE.
  rewrite u32_small by (pose proof (len_nonneg rest); lia).
  destruct (_ <? 9); [reflexivity|].
  cbn [nth firstn] in *.
  destruct (Byte.eqb b0 Guest.MAGIC_W) eqn:E0; [|reflexivity].
  destruct (Byte.eqb b1 Guest.MAGIC_I) eqn:E1; [|reflexivity].
  destruct (Byte.eqb b2 Guest.MAGIC_P) eqn:E2; [|reflexivity].
  destruct (Byte.eqb b3 Guest.MAGIC_C) eqn:E3; [|reflexivity].
  apply Byte.byte_dec_bl in E0, E1, E2, E3. subst. now contradiction Hm.
Qed.

Lemma magic_check (data : bytes) :
  firstn 4 data = Guest.MAGIC ->
  negb (Byte.eqb (nth 0 data x00) Guest.MAGIC_W)
  || negb (Byte.eqb (nth 1 data x00) Guest.MAGIC_I)
  || negb (Byte.eqb (nth 2 data x00) Guest.MAGIC_P)
  || negb (Byte.eqb (nth 3 data x00) Guest.MAGIC_C) = false.
Proof.
  intros H. do 4 (destruct data as [|? data]; [discriminate H|]).
  injection H as -> -> -> ->. reflexivity.
Qed.

Lemma decode_partial (data : bytes) :
  len data <= 2147483647 -> 9 <= len data ->
  firstn 4 data = Guest.MAGIC ->
  load_u32 data 5 <= 4294967286 ->
  len data < 9 + load_u32 data 5 ->
  Guest.decode data = Returns None.
Proof.
  intros Hmax Hge Hm Hl Hlt.
  pose proof (load_u32_range data 5).
  unfold Guest.decode, Guest.HEADER_SIZE.
  rewrite magic_check by assumption.
  rewrite u32_small by lia. rewrite u32_small by lia.
  destruct (len data <? 9); [reflexivity|]. cbn [orb negb].
  destruct (len data <? 9 + load_u32 data 5) eqn:E; [reflexivity|].
  apply Z.ltb_ge in E. lia.
Qed.

Lemma store_bytes_all (vs buf : bytes) :
  length vs = length buf -> store_bytes buf 0 vs = vs.
Proof.
  intros H. pose proof (store_bytes_app vs [] buf) as E.
  cbn [app length] in E. rewrite E by lia.
  rewrite skipn_all2 by lia. apply app_nil_r.
Qed.

Lemma decode_frame (data : bytes) :
  len data <= 2147483647 ->
  firstn 4 data = Guest.MAGIC ->
  9 + load_u32 data 5 <= len data ->
  load_u32 data 5 < Guest.OBJECT_MAXSIZE ->
  Guest.decode data
  = Returns (Some (Guest.mkFrame (load_u8 data 4)
                     (subarray data 9 (9 + load_u32 data 5)))).
Proof.
  intros Hmax Hm Hle Hobj.
  pose proof (load_u32_range data 5) as Hr.
  unfold Guest.decode, Guest.HEADER_SIZE, Guest.new_Uint8Array,
    Guest.memory_copy, subarray.
  rewrite magic_check by assumption.
  rewrite u32_small by lia. rewrite u32_small by lia.
  destruct (len data <? 9) eqn:E9; [apply Z.ltb_lt in E9; lia|].
  destruct (len data <? 9 + load_u32 data 5) eqn:E;
    [apply Z.ltb_lt in E; lia|].
  cbn [orb negb].
  rewrite !(i32_small (load_u32 data 5))
    by (unfold Guest.OBJECT_MAXSIZE in Hobj; lia).
  rewrite new_ArrayBuffer_returns by lia.
  replace (9 + load_u32 data 5 - 9) with (load_u32 data 5) by lia.
  change (Z.to_nat 9) with 9%nat.
  destruct (load_u32 data 5 >? 0) eqn:Ep.
  - rewrite store_bytes_all; [reflexivity|].
    rewrite repeat_length, length_firstn, length_skipn.
    unfold len in *. lia.
  - rewrite Z.gtb_ltb in Ep. apply Z.ltb_ge in Ep.
    replace (load_u32 data 5) with 0 by lia. reflexivity.
Qed.

(** ** Searching for the magic *)

Import Host.

Lemma indexOf_bounds (buf needle : bytes) :
  -1 <= indexOf buf needle <= len buf.
Proof.
  induction buf as [|b buf IH]; cbn [indexOf].
  - destruct (starts_with needle []); unfold len; simpl; lia.
  - destruct (starts_with needle (b :: buf)).
    + unfold len; simpl length; lia.
    + destruct (indexOf buf needle =? -1) eqn:E.
      * unfold len; simpl length; lia.
      * apply Z.eqb_neq in E. unfold len in *. simpl length. lia.
Qed.

Lemma indexOf_head (buf needle : bytes) :
  starts_with needle buf = true -> indexOf buf needle = 0.
Proof. intros H. destruct buf; cbn [indexOf]; now rewrite H. Qed.

Lemma indexOf_zero (buf needle : bytes) :
  indexOf buf needle = 0 -> starts_with needle buf = true.
Proof.
  destruct buf as [|b buf]; cbn [indexOf].
  - destruct (starts_with needle []); [reflexivity | discriminate].
  - destruct (starts_with needle (b :: buf)); [reflexivity|].
    pose proof (indexOf_bounds buf needle).
    destruct (indexOf buf needle =? -1) eqn:E; [discriminate|].
    apply Z.eqb_neq in E. lia.
Qed.

Lemma indexOf_found (buf needle : bytes) :
  0 <= indexOf buf needle ->
  starts_with needle (subarray_from buf (indexOf buf needle)) = true.
Proof.
  unfold subarray_from.
  induction buf as [|b buf IH]; cbn [indexOf].
  - destruct (starts_with needle []) eqn:E; [intros _; exact E | lia].
  - destruct (starts_with needle (b :: buf)) eqn:E; [intros _; exact E|].
    pose proof (indexOf_bounds buf needle).
    destruct (indexOf buf needle =? -1) eqn:En; [lia|].
    apply Z.eqb_neq in En. intros _.
    replace (Z.to_nat (indexOf buf needle + 1))
      with (S (Z.to_nat (indexOf buf needle))) by lia.
    cbn [skipn]. apply IH. lia.
Qed.

Lemma starts_with_inv (needle buf : bytes) :
  starts_with needle buf = true -> exists rest, buf = needle ++ rest.
Proof.
  revert buf. induction needle as [|n needle IH]; intros buf H.
  - now exists buf.
  - destruct buf as [|b buf]; [discriminate|]. cbn in H.
    apply andb_prop in H as [E H]. apply Byte.byte_dec_bl in E. subst b.
    destruct (IH _ H) as [rest ->]. now exists rest.
Qed.

(** The magic has no proper overlap with itself: bytes ahead of a magic that
    hold no magic themselves do not form one together with its first bytes. *)
Lemma indexOf_after_garbage (garbage rest : bytes) :
  indexOf garbage MAGIC = -1 ->
  indexOf (garbage ++ MAGIC ++ rest) MAGIC = len garbage.
Proof.
  induction garbage as [|b g IH]; intros H.
  - reflexivity.
  - cbn [indexOf] in H.
    destruct (starts_with MAGIC (b :: g)) eqn:E; [discriminate|].
    destruct (indexOf g MAGIC =? -1) eqn:En;
      [apply Z.eqb_eq in En | pose proof (indexOf_bounds g MAGIC);
       apply Z.eqb_neq in En; lia].
    specialize (IH En).
    cbn [app indexOf]. cbn [app] in IH. rewrite IH.
    assert (Es : starts_with MAGIC (b :: g ++ MAGIC ++ rest) = false).
    { unfold MAGIC in E |- *. destruct g as [|c [|d [|e g]]]; cbn [starts_with app] in E |- *.
      - destruct (Byte.eqb x57 b); reflexivity.
      - destruct (Byte.eqb x57 b), (Byte.eqb x49 c); reflexivity.
      - destruct (Byte.eqb x57 b), (Byte.eqb x49 c), (Byte.eqb x50 d); reflexivity.
      - exact E. }
    rewrite Es.
    pose proof (len_nonneg g).
    destruct (len g =? -1) eqn:E1; [apply Z.eqb_eq in E1; lia|].
    unfold len. simpl length. lia.
Qed.

(** * The claims about the guest codec *)

Lemma decode_truncated (data : bytes) :
  len data <= 2147483647 ->
  firstn 4 data = Guest.MAGIC ->
  9 + load_u32 data 5 <= len data ->
  load_u32 data 5 < Guest.OBJECT_MAXSIZE ->
  Guest.decode (subarray data 0 (9 + load_u32 data 5)) = Guest.decode data.
Proof.
  intros Hmax Hm Hle Hobj.
  pose proof (load_u32_range data 5) as Hr.
  rewrite (decode_frame data Hmax Hm Hle Hobj).
  destruct (head9 data ltac:(lia))
    as (b0 & b1 & b2 & b3 & b4 & b5 & b6 & b7 & b8 & rest & E).
  set (L := load_u32 data 5) in *.
  assert (Et : subarray data 0 (9 + L)
               = b0 :: b1 :: b2 :: b3 :: b4 :: b5 :: b6 :: b7 :: b8
                 :: firstn (Z.to_nat L) rest).
  { unfold subarray. rewrite E.
    replace (Z.to_nat (9 + L - 0)) with (9 + Z.to_nat L)%nat by lia.
    reflexivity. }
  assert (EL : load_u32 (subarray data 0 (9 + L)) 5 = L).
  { rewrite Et. subst L. rewrite E. reflexivity. }
  assert (Hlen : len (subarray data 0 (9 + L)) = 9 + L).
  { rewrite Et. unfold len in *. rewrite E in Hle. simpl length in *.
    rewrite length_firstn. lia. }
  rewrite decode_frame; rewrite ?EL, ?Hlen; try lia.
  - f_equal. f_equal. f_equal.
    + rewrite Et, E. reflexivity.
    + rewrite Et, E. unfold subarray.
      replace (Z.to_nat (9 + L - 9)) with (Z.to_nat L) by lia.
      change (Z.to_nat 9) with 9%nat. cbn [skipn].
      rewrite firstn_firstn, Nat.min_id. reflexivity.
  - rewrite Et. rewrite E in Hm. exact Hm.
Qed.

(** C4, as the code has it: for every type byte and every payload of at
    most [2^30 - 30] bytes (so that the frame of [9 + length] bytes is
    smaller than [OBJECT_MAXSIZE], the least size the allocator
    refuses), [decode(encode(type, payload))] is a frame with that type
    and that payload. *)
Theorem C4_roundtrip (type : Z) (payload : bytes) :
  0 <= type < 256 ->
  len payload <= 1073741794 ->
  Guest.roundtrip type payload
  = Returns (Some (Guest.mkFrame type payload)).
Proof.
  intros Ht Hp. pose proof (len_nonneg payload) as H0.
  unfold Guest.roundtrip. rewrite encode_bytes by assumption.
  set (data := [x57; x49; x50; x43; Z_to_byte type] ++ le32 (len payload)
               ++ payload).
  assert (EL : load_u32 data 5 = len payload)
    by (apply le32_value; lia).
  assert (Hlen : len data = 9 + len payload)
    by (unfold data, len; simpl length; lia).
  rewrite decode_frame; rewrite ?EL, ?Hlen;
    try (unfold Guest.OBJECT_MAXSIZE; lia); [|reflexivity].
  f_equal. f_equal. f_equal.
  - change (load_u8 data 4) with (byte_to_Z (Z_to_byte type)).
    rewrite byte_to_Z_to_byte. apply Z.mod_small. lia.
  - unfold subarray.
    replace (Z.to_nat (9 + len payload - 9)) with (length payload)
      by (unfold len; lia).
    change (skipn (Z.to_nat 9) data) with payload. apply firstn_all.
Qed.

Lemma C4_roundtrip_witness :
  Guest.roundtrip 3 [x68; x69] = Returns (Some (Guest.mkFrame 3 [x68; x69])).
Proof.
  apply (C4_roundtrip 3 [x68; x69]).
  - lia.
  - vm_compute. discriminate.
Defined.

(** C4 fails as stated: a payload of [2^30 - 29] bytes is one the
    runtime can hold (it is smaller than [OBJECT_MAXSIZE]) and is within
    the claim's bound; its frame of [2^30 - 20] bytes is one the
    allocator refuses, so [encode] throws. *)
Lemma C4_roundtrip_large_payload :
  len (repeat x00 (Z.to_nat 1073741795)) < Guest.OBJECT_MAXSIZE
  /\ len (repeat x00 (Z.to_nat 1073741795)) <= 4294967295
  /\ Guest.roundtrip 3 (repeat x00 (Z.to_nat 1073741795))
     = Throws Guest.AllocationTooLarge.
Proof.
  assert (E : len (repeat x00 (Z.to_nat 1073741795)) = 1073741795)
    by (unfold len; rewrite repeat_length, Z2Nat.id; lia).
  split; [rewrite E; unfold Guest.OBJECT_MAXSIZE; lia|].
  split; [rewrite E; lia|].
  unfold Guest.roundtrip. rewrite encode_throws; [reflexivity|].
  rewrite E. lia.
Qed.

(** On a header whose length field is within nine of [2^32], the sum
    [HEADER_SIZE + len] wraps around, the length test passes, and the
    allocation of the payload throws. *)
Example decode_length_wraps :
  Guest.decode [x57; x49; x50; x43; x03; xff; xff; xff; xff]
  = Throws Guest.RangeError.
Proof. reflexivity. Qed.

(** C5, as the code has it: [decode], checking in order, returns [null]
    when fewer than 9 bytes are available, [null] when the first four
    bytes are not the magic, [null] when fewer than [9 + length] bytes
    are available (for a length field of at most [2^32 - 10]), and
    otherwise a frame whose type is byte 4 and whose payload is the
    [length] bytes after the header; the result of decoding a complete
    frame does not depend on the bytes after it.  Incomplete and invalid
    input are both answered by [null].  (A payload that lies inside a
    buffer the runtime holds is smaller than [OBJECT_MAXSIZE], so its
    copy can be allocated.) *)
Theorem C5_decode_policy (data : bytes) :
  len data <= 2147483647 ->
  (len data < 9 -> Guest.decode data = Returns None)
  /\ (9 <= len data -> firstn 4 data <> Guest.MAGIC ->
      Guest.decode data = Returns None)
  /\ (9 <= len data -> firstn 4 data = Guest.MAGIC ->
      load_u32 data 5 <= 4294967286 ->
      len data < 9 + load_u32 data 5 ->
      Guest.decode data = Returns None)
  /\ (firstn 4 data = Guest.MAGIC ->
      9 + load_u32 data 5 <= len data ->
      load_u32 data 5 < Guest.OBJECT_MAXSIZE ->
      Guest.decode data
      = Returns (Some (Guest.mkFrame (load_u8 data 4)
                         (subarray data 9 (9 + load_u32 data 5))))
      /\ len (subarray data 9 (9 + load_u32 data 5)) = load_u32 data 5
      /\ Guest.decode (subarray data 0 (9 + load_u32 data 5))
         = Guest.decode data).
Proof.
  intros Hmax. repeat split.
  - now apply decode_short.
  - now apply decode_bad_magic.
  - now apply decode_partial.
  - now apply decode_frame.
  - pose proof (load_u32_range data 5).
    unfold subarray, len in *.
    rewrite length_firstn, length_skipn. lia.
  - now apply decode_truncated.
Qed.

Lemma C5_decode_policy_witness :
  Guest.decode [x57; x49; x50; x43; x03; x02; x00; x00; x00; x68; x69; x21]
  = Returns (Some (Guest.mkFrame 3 [x68; x69]))
  /\ Guest.decode [x57; x49; x50; x43; x03; x02; x00; x00; x00; x68; x69]
     = Guest.decode
         [x57; x49; x50; x43; x03; x02; x00; x00; x00; x68; x69; x21].
Proof.
  pose proof (C5_decode_policy
    [x57; x49; x50; x43; x03; x02; x00; x00; x00; x68; x69; x21]) as H.
  destruct H as (_ & _ & _ & H).
  - vm_compute. discriminate.
  - destruct (H eq_refl) as (Hd & _ & Ht).
    + vm_compute. discriminate.
    + vm_compute. reflexivity.
    + split; [exact Hd | exact Ht].
Defined.

(** C5 fails as stated: a buffer that is too short and a buffer of nine
    bytes with a wrong magic get the same answer from [decode], so the
    two outcomes cannot be told apart; and a header with the length
    field [0xFFFFFFFF] and no payload is not answered at all. *)
Lemma C5_incomplete_and_invalid_coincide :
  Guest.decode [x57; x49; x50; x43]
  = Guest.decode [x00; x00; x00; x00; x00; x00; x00; x00; x00]
  /\ Guest.decode [x57; x49; x50; x43; x03; xff; xff; xff; xff]
     = Throws Guest.RangeError.
Proof. split; reflexivity. Qed.

(** C9: [encode(OPEN)] is the nine bytes 57 49 50 43 00 00 00 00 00,
    [encode(DATA, "hi")] is the eleven bytes
    57 49 50 43 03 02 00 00 00 68 69, and [decode] of the first four
    bytes of either frame returns [null], its answer to incomplete
    input. *)
Theorem C9_concrete_frames :
  Guest.encode MessageType.OPEN None
  = Returns [x57; x49; x50; x43; x00; x00; x00; x00; x00]
  /\ Guest.encode MessageType.DATA (Some [x68; x69])
     = Returns [x57; x49; x50; x43; x03; x02; x00; x00; x00; x68; x69]
  /\ Guest.decode
       (subarray [x57; x49; x50; x43; x00; x00; x00; x00; x00] 0 4)
     = Returns None
  /\ Guest.decode
       (subarray [x57; x49; x50; x43; x03; x02; x00; x00; x00; x68; x69] 0 4)
     = Returns None.
Proof. repeat split. Qed.

(** * The host channel *)

Section HostFacts.

Context {json : Type} (JSON_parse : bytes -> option json).

Lemma at_magic_length (b : bytes) : (length (at_magic b) <= length b)%nat.
Proof.
  unfold at_magic, subarray_from.
  destruct (indexOf b MAGIC >? 0); [rewrite length_skipn|]; lia.
Qed.

Lemma at_magic_starts (b : bytes) :
  indexOf b MAGIC <> -1 -> starts_with MAGIC (at_magic b) = true.
Proof.
  intros Hi. pose proof (indexOf_bounds b MAGIC) as Hb. unfold at_magic.
  destruct (indexOf b MAGIC >? 0) eqn:E.
  - apply indexOf_found. lia.
  - rewrite Z.gtb_ltb in E. apply Z.ltb_ge in E.
    apply indexOf_zero. lia.
Qed.

Ltac iterate_cases b :=
  unfold iterate, HEADER_SIZE; cbv zeta; fold (at_magic b);
  destruct (len b =? 0) eqn:Eempty;
  [|destruct (indexOf b MAGIC =? -1) eqn:Eidx;
    [|destruct (len (at_magic b) <? 9) eqn:Ehdr;
      [|destruct (len (at_magic b) <? 9 + readUInt32LE (at_magic b) 5)
          eqn:Eframe;
        [|destruct (handleFrame JSON_parse (readUInt8 (at_magic b) 4)
                     (subarray (at_magic b) 9
                        (9 + readUInt32LE (at_magic b) 5))) eqn:Ecall]]]].

Lemma iterate_continue (b : bytes) (cs : list (callback json)) (b' : bytes) :
  iterate JSON_parse b = Continue cs b' -> (length b' < length b)%nat.
Proof.
  iterate_cases b; try discriminate.
  intros H.
  assert (b' = subarray_from (at_magic b)
                 (9 + readUInt32LE (at_magic b) 5)) as -> by congruence.
  apply Z.ltb_ge in Ehdr, Eframe.
  pose proof (load_u32_range (at_magic b) 5) as Hr.
  pose proof (at_magic_length b).
  unfold subarray_from, readUInt32LE, len in *.
  rewrite length_skipn. lia.
Qed.

(** The loop returns once the fuel exceeds the length of the buffer, and
    more fuel does not change what it returns. *)
Lemma onData_loop_returns (fuel : nat) (b : bytes) :
  (length b < fuel)%nat -> exists r, onData_loop JSON_parse fuel b = Some r.
Proof.
  revert b. induction fuel as [|fuel IH]; intros b Hf; [lia|].
  cbn [onData_loop]. destruct (iterate JSON_parse b) as [r|cs b'] eqn:E.
  - now exists r.
  - apply iterate_continue in E. destruct (IH b') as [r Hr]; [lia|].
    rewrite Hr. now eexists.
Qed.

Lemma onData_loop_more_fuel (fuel fuel' : nat) (b : bytes) (r : run json) :
  onData_loop JSON_parse fuel b = Some r -> (fuel <= fuel')%nat ->
  onData_loop JSON_parse fuel' b = Some r.
Proof.
  revert fuel' b r.
  induction fuel as [|fuel IH]; intros fuel' b r H Hle; [discriminate|].
  destruct fuel' as [|fuel']; [lia|].
  cbn [onData_loop] in *.
  destruct (iterate JSON_parse b) as [r0|cs b']; [exact H|].
  destruct (onData_loop JSON_parse fuel b') as [r1|] eqn:E; [|discriminate].
  rewrite (IH fuel' b' r1 E) by lia. exact H.
Qed.

Lemma onData_loop_onData (fuel : nat) (b : bytes) :
  (length b < fuel)%nat ->
  onData_loop JSON_parse fuel b = onData JSON_parse [] b.
Proof.
  intros Hf. unfold onData. cbn [app].
  destruct (onData_loop_returns (S (length b)) b) as [r Hr]; [lia|].
  rewrite Hr. apply (onData_loop_more_fuel (S (length b))); [exact Hr | lia].
Qed.

(** [onData] always returns or throws: the fuel it is given suffices. *)
Lemma onData_returns (held chunk : bytes) :
  exists r, onData JSON_parse held chunk = Some r.
Proof. apply onData_loop_returns. lia. Qed.

Lemma onData_unfold (b : bytes) :
  onData JSON_parse [] b
  = match iterate JSON_parse b with
    | Return r => Some r
    | Continue cs b' => option_map (after cs) (onData JSON_parse [] b')
    end.
Proof.
  unfold onData at 1. cbn [app onData_loop].
  destruct (iterate JSON_parse b) as [r|cs b'] eqn:E; [reflexivity|].
  apply iterate_continue in E. rewrite onData_loop_onData by lia.
  reflexivity.
Qed.

(** A pass over a buffer that starts with the magic and holds the whole
    frame its header declares. *)
Lemma iterate_frame (b : bytes) :
  starts_with MAGIC b = true ->
  9 + readUInt32LE b 5 <= len b ->
  iterate JSON_parse b
  = match handleFrame JSON_parse (readUInt8 b 4)
            (subarray b 9 (9 + readUInt32LE b 5)) with
    | Throws e =>
      Return (mkRun (subarray_from b (9 + readUInt32LE b 5)) [] (Some e))
    | Returns c => Continue [c] (subarray_from b (9 + readUInt32LE b 5))
    end.
Proof.
  intros Hs Hle.
  pose proof (load_u32_range b 5 : 0 <= readUInt32LE b 5 < 4294967296) as Hr.
  assert (Ei : indexOf b MAGIC = 0) by now apply indexOf_head.
  assert (Ea : at_magic b = b) by (unfold at_magic; now rewrite Ei).
  iterate_cases b; rewrite ?Ea in *.
  - apply Z.eqb_eq in Eempty. lia.
  - rewrite Ei in Eidx. discriminate.
  - apply Z.ltb_lt in Ehdr. lia.
  - apply Z.ltb_lt in Eframe. lia.
  - rewrite Ei, Ecall. reflexivity.
  - rewrite Ei, Ecall. reflexivity.
Qed.

(** A pass over a buffer that starts with the magic and does not yet
    hold the whole frame. *)
Lemma iterate_waiting (b : bytes) :
  starts_with MAGIC b = true ->
  len b < 9 \/ len b < 9 + readUInt32LE b 5 ->
  iterate JSON_parse b = Return (mkRun b [] None).
Proof.
  intros Hs Hlt.
  assert (Ei : indexOf b MAGIC = 0) by now apply indexOf_head.
  assert (Ea : at_magic b = b) by (unfold at_magic; now rewrite Ei).
  iterate_cases b; rewrite ?Ea in *; rewrite ?Ei; try reflexivity;
    try (rewrite Ei in Eidx; discriminate);
    apply Z.ltb_ge in Ehdr, Eframe; lia.
Qed.

(** What [send] writes: the magic, the type, the length of the payload
    and the payload. *)
Lemma send_bytes (type : Z) (payload w : bytes) :
  send type (Some payload) = Returns w ->
  0 <= type <= 255 /\ len payload <= 4294967295
  /\ w = MAGIC ++ Z_to_byte type :: le32 (len payload) ++ payload.
Proof.
  unfold send.
  destruct ((type <? 0) || (255 <? type)) eqn:Et; [discriminate|].
  destruct ((len payload <? 0) || (4294967295 <? len payload)) eqn:El;
    [discriminate|].
  apply orb_false_elim in Et as [Et1 Et2].
  apply orb_false_elim in El as [El1 El2].
  apply Z.ltb_ge in Et1, Et2, El1, El2.
  intros H. injection H as <-. repeat split; try lia.
Qed.

Lemma onData_frame (held chunk : bytes) (type : Z) (payload w rest : bytes) :
  send type (Some payload) = Returns w ->
  held ++ chunk = w ++ rest ->
  onData JSON_parse held chunk
  = match handleFrame JSON_parse type payload with
    | Throws e => Some (mkRun rest [] (Some e))
    | Returns c => option_map (after [c]) (onData JSON_parse [] rest)
    end.
Proof.
  intros Hw Hacc. apply send_bytes in Hw as (Ht & Hl & ->).
  pose proof (len_nonneg payload) as H0.
  change (onData JSON_parse held chunk)
    with (onData JSON_parse [] (held ++ chunk)).
  rewrite Hacc. clear Hacc held chunk.
  set (b := (MAGIC ++ Z_to_byte type :: le32 (len payload) ++ payload)
            ++ rest).
  assert (El : readUInt32LE b 5 = len payload) by (apply le32_value; lia).
  assert (Et : readUInt8 b 4 = type).
  { change (readUInt8 b 4) with (byte_to_Z (Z_to_byte type)).
    rewrite byte_to_Z_to_byte. apply Z.mod_small. lia. }
  assert (Ep : subarray b 9 (9 + len payload) = payload).
  { unfold subarray.
    replace (Z.to_nat (9 + len payload - 9)) with (length payload)
      by (unfold len; lia).
    change (skipn (Z.to_nat 9) b) with (payload ++ rest).
    rewrite firstn_app, firstn_all, Nat.sub_diag, app_nil_r. reflexivity. }
  assert (Er : subarray_from b (9 + len payload) = rest).
  { unfold subarray_from.
    replace (Z.to_nat (9 + len payload)) with (9 + length payload)%nat
      by (unfold len; lia).
    change (skipn (9 + length payload) b)
      with (skipn (length payload) (payload ++ rest)).
    rewrite skipn_app, skipn_all, Nat.sub_diag. reflexivity. }
  rewrite onData_unfold, iterate_frame.
  - rewrite El, Et, Ep, Er.
    destruct (handleFrame JSON_parse type payload); reflexivity.
  - reflexivity.
  - rewrite El. unfold b, len. rewrite !length_app. simpl length.
    rewrite ?length_app. simpl length. lia.
Qed.

(** ** What a call leaves in the accumulator *)

Lemma handleFrame_no_passthrough (type : Z) (payload d : bytes) :
  handleFrame JSON_parse type payload <> Returns (onPassthrough d).
Proof.
  unfold handleFrame.
  destruct (type =? MessageType.OPEN); [discriminate|].
  destruct (type =? MessageType.CLOSE); [discriminate|].
  destruct (type =? MessageType.CALL);
    [destruct (JSON_parse payload); discriminate|].
  destruct (type =? MessageType.DATA); discriminate.
Qed.

Lemma before_magic_nonempty (b d : bytes) :
  len b <> 0 ->
  In (onPassthrough d)
     (if indexOf b MAGIC >? 0
      then [@onPassthrough json (subarray b 0 (indexOf b MAGIC))] else []) ->
  d <> [].
Proof.
  intros Hb Hin. destruct (indexOf b MAGIC >? 0) eqn:E; [|destruct Hin].
  destruct Hin as [Hin|[]]. injection Hin as <-.
  rewrite Z.gtb_ltb in E. apply Z.ltb_lt in E.
  intros Hnil. apply (f_equal (@length byte)) in Hnil.
  unfold subarray, len in *. cbn [skipn Z.to_nat length] in Hnil.
  rewrite length_firstn in Hnil. lia.
Qed.

Lemma iterate_settled (b : bytes) :
  match iterate JSON_parse b with
  | Return r =>
    (thrown r = None ->
     buffer r = [] \/ starts_with MAGIC (buffer r) = true)
    /\ (forall d, In (onPassthrough d) (calls r) -> d <> [])
  | Continue cs _ => forall d, In (onPassthrough d) cs -> d <> []
  end.
Proof.
  iterate_cases b; cbn [buffer calls thrown].
  - apply Z.eqb_eq in Eempty. split; [|intros d []].
    intros _. left. destruct b; [reflexivity | unfold len in Eempty].
    simpl length in Eempty. lia.
  - apply Z.eqb_neq in Eempty. split; [now left|].
    intros d [Hd|[]]. injection Hd as <-. intros ->. now apply Eempty.
  - apply Z.eqb_neq in Eempty, Eidx. split.
    + intros _. right. now apply at_magic_starts.
    + intros d. now apply before_magic_nonempty.
  - apply Z.eqb_neq in Eempty, Eidx. split.
    + intros _. right. now apply at_magic_starts.
    + intros d. now apply before_magic_nonempty.
  - apply Z.eqb_neq in Eempty. intros d Hin.
    apply in_app_or in Hin as [Hin|[Hin|[]]].
    + revert Hin. now apply before_magic_nonempty.
    + subst a. now apply handleFrame_no_passthrough in Ecall.
  - apply Z.eqb_neq in Eempty. split; [discriminate|].
    intros d. now apply before_magic_nonempty.
Qed.

Lemma onData_loop_settled (fuel : nat) (b : bytes) (r : run json) :
  onData_loop JSON_parse fuel b = Some r ->
  (thrown r = None -> buffer r = [] \/ starts_with MAGIC (buffer r) = true)
  /\ (forall d, In (onPassthrough d) (calls r) -> d <> []).
Proof.
  revert b r. induction fuel as [|fuel IH]; intros b r H; [discriminate|].
  cbn [onData_loop] in H. pose proof (iterate_settled b) as Hi.
  destruct (iterate JSON_parse b) as [r0|cs b'].
  - injection H as <-. exact Hi.
  - destruct (onData_loop JSON_parse fuel b') as [r1|] eqn:E; [|discriminate].
    injection H as <-. destruct (IH _ _ E) as [Hb Hc].
    cbn [after buffer calls thrown]. split; [exact Hb|].
    intros d Hin. apply in_app_or in Hin as [Hin|Hin]; eauto.
Qed.

(** ** Resynchronisation *)

(** A buffer without the magic is handed to [onPassthrough] whole. *)
Lemma onData_without_magic (b : bytes) :
  b <> [] -> indexOf b MAGIC = -1 ->
  onData JSON_parse [] b = Some (mkRun [] [onPassthrough b] None).
Proof.
  intros Hb Hi. rewrite onData_unfold. unfold iterate. rewrite Hi.
  destruct (len b =? 0) eqn:E; [|reflexivity].
  apply Z.eqb_eq in E. destruct b; [contradiction | unfold len in E].
  simpl length in E. lia.
Qed.

(** Bytes without the magic ahead of a magic are one passthrough run,
    and the pass goes on as it would from the magic. *)
Lemma iterate_after_garbage (garbage f : bytes) :
  garbage <> [] -> indexOf garbage MAGIC = -1 ->
  starts_with MAGIC f = true ->
  iterate JSON_parse (garbage ++ f)
  = match iterate JSON_parse f with
    | Return r => Return (after [onPassthrough garbage] r)
    | Continue cs b' => Continue (onPassthrough garbage :: cs) b'
    end.
Proof.
  intros Hg Hi Hs.
  destruct (starts_with_inv _ _ Hs) as [rest ->].
  assert (Hlg : 0 < len garbage).
  { destruct garbage; [contradiction | unfold len; simpl length; lia]. }
  assert (Ei : indexOf (garbage ++ MAGIC ++ rest) MAGIC = len garbage)
    by now apply indexOf_after_garbage.
  assert (Ei0 : indexOf (MAGIC ++ rest) MAGIC = 0) by reflexivity.
  unfold iterate. cbv zeta. rewrite Ei, Ei0.
  assert (E1 : (len (garbage ++ MAGIC ++ rest) =? 0) = false).
  { apply Z.eqb_neq. rewrite len_app.
    pose proof (len_nonneg (MAGIC ++ rest)). lia. }
  assert (E2 : (len garbage =? -1) = false) by (apply Z.eqb_neq; lia).
  assert (E3 : (len garbage >? 0) = true)
    by (rewrite Z.gtb_ltb; apply Z.ltb_lt; lia).
  assert (E4 : subarray (garbage ++ MAGIC ++ rest) 0 (len garbage) = garbage).
  { unfold subarray, len. rewrite Z.sub_0_r, Nat2Z.id. cbn [Z.to_nat skipn].
    rewrite firstn_app, firstn_all, Nat.sub_diag, app_nil_r. reflexivity. }
  assert (E5 : subarray_from (garbage ++ MAGIC ++ rest) (len garbage)
               = MAGIC ++ rest).
  { unfold subarray_from, len. rewrite Nat2Z.id.
    rewrite skipn_app, skipn_all, Nat.sub_diag. reflexivity. }
  rewrite E1, E2, E3, E4, E5.
  change (len (MAGIC ++ rest) =? 0) with false.
  change (0 =? -1) with false. change (0 >? 0) with false. cbv iota.
  destruct (len (MAGIC ++ rest) <? HEADER_SIZE); [reflexivity|].
  destruct (len (MAGIC ++ rest) <? _); [reflexivity|].
  destruct (handleFrame _ _ _); reflexivity.
Qed.

Lemma onData_after_garbage (garbage f : bytes) :
  garbage <> [] -> indexOf garbage MAGIC = -1 ->
  starts_with MAGIC f = true ->
  onData JSON_parse [] (garbage ++ f)
  = option_map (after [onPassthrough garbage]) (onData JSON_parse [] f).
Proof.
  intros Hg Hi Hs.
  rewrite (onData_unfold (garbage ++ f)), (onData_unfold f).
  rewrite iterate_after_garbage by assumption.
  destruct (iterate JSON_parse f) as [r|cs b']; [reflexivity|].
  destruct (onData JSON_parse [] b'); reflexivity.
Qed.

(** A well-formed frame behind bytes that hold no magic: the bytes are
    passed through, if there are any, and the frame is taken off and
    dispatched. *)
Lemma onData_garbage_frame
  (held chunk garbage : bytes) (type : Z) (payload w rest : bytes) :
  indexOf garbage MAGIC = -1 ->
  send type (Some payload) = Returns w ->
  held ++ chunk = garbage ++ w ++ rest ->
  let passed :=
    match garbage with [] => [] | _ :: _ => [onPassthrough garbage] end in
  onData JSON_parse held chunk
  = match handleFrame JSON_parse type payload with
    | Throws e => Some (mkRun rest passed (Some e))
    | Returns c =>
      option_map (after (passed ++ [c])) (onData JSON_parse [] rest)
    end.
Proof.
  intros Hi Hw Hacc passed. subst passed.
  destruct garbage as [|g0 g].
  - cbn [app]. now apply (onData_frame _ _ _ _ w).
  - change (onData JSON_parse held chunk)
      with (onData JSON_parse [] (held ++ chunk)).
    rewrite Hacc, onData_after_garbage; try assumption; try discriminate.
    + rewrite (onData_frame [] (w ++ rest) type payload w rest Hw eq_refl).
      destruct (handleFrame JSON_parse type payload) as [c|e];
        [|reflexivity].
      destruct (onData JSON_parse [] rest) as [r|]; reflexivity.
    + apply send_bytes in Hw as (_ & _ & ->). reflexivity.
Qed.

(** When a pass returns, what it leaves is empty or a frame that is not
    complete yet. *)
Lemma iterate_return_waits (b : bytes) (r : run json) :
  iterate JSON_parse b = Return r -> thrown r = None ->
  buffer r = []
  \/ (starts_with MAGIC (buffer r) = true
      /\ (len (buffer r) < 9
          \/ len (buffer r) < 9 + readUInt32LE (buffer r) 5)).
Proof.
  iterate_cases b; intros H; try discriminate H;
    injection H as <-; cbn [buffer thrown]; intros Ht; try discriminate Ht.
  - left. apply Z.eqb_eq in Eempty. destruct b; [reflexivity|].
    unfold len in Eempty. simpl length in Eempty. lia.
  - now left.
  - right. apply Z.eqb_neq in Eidx. apply Z.ltb_lt in Ehdr.
    split; [now apply at_magic_starts | now left].
  - right. apply Z.eqb_neq in Eidx. apply Z.ltb_lt in Eframe.
    split; [now apply at_magic_starts | now right].
Qed.

Lemma onData_loop_waits (fuel : nat) (b : bytes) (r : run json) :
  onData_loop JSON_parse fuel b = Some r -> thrown r = None ->
  buffer r = []
  \/ (starts_with MAGIC (buffer r) = true
      /\ (len (buffer r) < 9
          \/ len (buffer r) < 9 + readUInt32LE (buffer r) 5)).
Proof.
  revert b r. induction fuel as [|fuel IH]; intros b r H; [discriminate|].
  cbn [onData_loop] in H.
  destruct (iterate JSON_parse b) as [r0|cs b'] eqn:Ei.
  - injection H as <-. now apply (iterate_return_waits b).
  - destruct (onData_loop JSON_parse fuel b') as [r1|] eqn:E; [|discriminate].
    injection H as <-. cbn [after buffer thrown]. now apply (IH b').
Qed.

(** * The claims about the host channel *)

(** C1, on the code: the bytes "WIP" fed alone are handed to
    [onPassthrough] and nothing is kept; the rest of the frame, fed next,
    then holds no magic and is handed to [onPassthrough] as well, so the
    frame is never dispatched. *)
Theorem C1_split_magic_is_flushed :
  onData JSON_parse [] [x57; x49; x50]
  = Some (mkRun [] [onPassthrough [x57; x49; x50]] None)
  /\ feed JSON_parse []
       [[x57; x49; x50]; [x43; x03; x01; x00; x00; x00; x78]]
     = Some (mkRun []
               [onPassthrough [x57; x49; x50];
                onPassthrough [x43; x03; x01; x00; x00; x00; x78]]
               None).
Proof. split; reflexivity. Qed.

(** C2, as the code has it: a well-formed frame whose type is in
    [0x04..0xFF], at the front of the accumulator or behind bytes that
    hold no magic, is taken off the accumulator, all [9 + N] bytes of
    it, after the bytes ahead of it are passed through; [handleFrame]
    then throws "Unknown frame type", no callback is invoked for the
    frame, and the bytes after it stay in the accumulator. *)
Theorem C2_reserved_type_throws
  (held chunk garbage : bytes) (type : Z) (payload w rest : bytes) :
  4 <= type ->
  indexOf garbage MAGIC = -1 ->
  send type (Some payload) = Returns w ->
  held ++ chunk = garbage ++ w ++ rest ->
  onData JSON_parse held chunk
  = Some (mkRun rest
            match garbage with
            | [] => []
            | _ :: _ => [onPassthrough garbage]
            end
            (Some (UnknownFrameType type))).
Proof.
  intros Ht Hi Hw Hacc.
  rewrite (onData_garbage_frame _ _ _ _ _ _ _ Hi Hw Hacc).
  unfold handleFrame, MessageType.OPEN, MessageType.CLOSE,
    MessageType.CALL, MessageType.DATA.
  destruct (type =? 0) eqn:E0; [apply Z.eqb_eq in E0; lia|].
  destruct (type =? 1) eqn:E1; [apply Z.eqb_eq in E1; lia|].
  destruct (type =? 2) eqn:E2; [apply Z.eqb_eq in E2; lia|].
  destruct (type =? 3) eqn:E3; [apply Z.eqb_eq in E3; lia|].
  reflexivity.
Qed.

(** C3, on the code: the frame [send(DATA, "x")] writes is dispatched
    when it arrives in one chunk, and is passed through, all ten bytes
    of it, when it arrives as "WIP" and the rest, or byte by byte. *)
Theorem C3_chunking_changes_output :
  option_map (fun r => merge (calls r)) (feed JSON_parse [] [frame_x])
  = Some [onDataMessage [x78]]
  /\ option_map (fun r => merge (calls r))
       (feed JSON_parse []
          [[x57; x49; x50]; [x43; x03; x01; x00; x00; x00; x78]])
     = Some [onPassthrough frame_x]
  /\ option_map (fun r => merge (calls r))
       (feed JSON_parse [] (map (fun b => [b]) frame_x))
     = Some [onPassthrough frame_x].
Proof. repeat split. Qed.

(** C6: [garbage], bytes that hold no magic, immediately followed by
    the frame of [send(DATA, "x")] and fed in one call to a fresh
    channel, gives exactly one passthrough run equal to [garbage],
    followed by exactly one DATA frame with payload "x", in that order,
    and leaves the accumulator empty.  (The bytes before the magic are
    passed through when there are any, so [garbage] is not empty
    here.) *)
Theorem C6_resync (garbage : bytes) :
  garbage <> [] ->
  indexOf garbage MAGIC = -1 ->
  onData JSON_parse [] (garbage ++ frame_x)
  = Some (mkRun [] [onPassthrough garbage; onDataMessage [x78]] None).
Proof.
  intros Hg Hi. rewrite onData_after_garbage by (assumption || reflexivity).
  reflexivity.
Qed.

(** C7: a well-formed frame with a payload of [N] bytes, at the front
    of the accumulator or behind bytes that hold no magic, is [9 + N]
    bytes long and is taken off whole, whatever its payload holds (a
    magic included): the bytes ahead of it are passed through, the
    frame is dispatched, and the bytes after it are then handled as a
    call on them alone would handle them. *)
Theorem C7_frame_consumed
  (held chunk garbage : bytes) (type : Z) (payload w rest : bytes) :
  indexOf garbage MAGIC = -1 ->
  send type (Some payload) = Returns w ->
  held ++ chunk = garbage ++ w ++ rest ->
  let passed :=
    match garbage with [] => [] | _ :: _ => [onPassthrough garbage] end in
  len w = 9 + len payload
  /\ onData JSON_parse held chunk
     = match handleFrame JSON_parse type payload with
       | Throws e => Some (mkRun rest passed (Some e))
       | Returns c =>
         option_map (after (passed ++ [c])) (onData JSON_parse [] rest)
       end.
Proof.
  intros Hi Hw Hacc passed.
  split; [|now apply (onData_garbage_frame _ _ _ _ _ w)].
  apply send_bytes in Hw as (_ & _ & ->).
  unfold len. rewrite length_app. simpl length. rewrite ?length_app.
  simpl length. lia.
Qed.

(** C8, as the code has it: while the frame at the front of the
    accumulator is incomplete, whatever length its header declares and
    however many bytes have arrived, [onData] keeps every byte, invokes
    no callback and throws nothing; there is no limit on the buffered
    size. *)
Theorem C8_incomplete_frame_is_buffered (held chunk : bytes) :
  starts_with MAGIC (held ++ chunk) = true ->
  len (held ++ chunk) < 9
  \/ len (held ++ chunk) < 9 + readUInt32LE (held ++ chunk) 5 ->
  onData JSON_parse held chunk = Some (mkRun (held ++ chunk) [] None).
Proof.
  intros Hs Hlt.
  change (onData JSON_parse held chunk)
    with (onData JSON_parse [] (held ++ chunk)).
  rewrite onData_unfold, iterate_waiting by assumption. reflexivity.
Qed.

(** C10: every call of [onData] ends, and when it returns (rather than
    ending in an exception of [handleFrame]) the accumulator is empty,
    or starts with the four bytes of the magic and is a frame that is
    not complete yet (shorter than a header, or than the frame its
    header declares), so no other bytes, and no partial magic, are kept
    from one call to the next; and every passthrough run handed to
    [onPassthrough] is non-empty. *)
Theorem C10_accumulator_settled (held chunk : bytes) :
  exists r,
    onData JSON_parse held chunk = Some r
    /\ (thrown r = None ->
        buffer r = []
        \/ ((exists rest, buffer r = MAGIC ++ rest)
            /\ (len (buffer r) < 9
                \/ len (buffer r) < 9 + readUInt32LE (buffer r) 5)))
    /\ (forall d, In (onPassthrough d) (calls r) -> d <> []).
Proof.
  destruct (onData_returns held chunk) as [r H]. exists r.
  split; [exact H|]. split.
  - intros Ht. apply onData_loop_waits in H; [|exact Ht].
    destruct H as [E|[Hs Hw]]; [now left | right].
    split; [now apply starts_with_inv | exact Hw].
  - now apply (onData_loop_settled _ _ _ H).
Qed.

End HostFacts.

(** * Concrete runs *)

Example send_frame_x : send MessageType.DATA (Some [x78]) = Returns frame_x.
Proof. reflexivity. Qed.

(** C2 fails as stated: for a frame of type [0xFF] followed by the frame
    of [send(DATA, "x")], no callback is invoked, for neither frame: the
    call ends in the exception of [handleFrame]. *)
Lemma C2_reserved_type_not_delivered :
  send 255 None = Returns [x57; x49; x50; x43; xff; x00; x00; x00; x00]
  /\ onData no_json []
       ([x57; x49; x50; x43; xff; x00; x00; x00; x00] ++ frame_x)
     = Some (mkRun frame_x [] (Some (UnknownFrameType 255))).
Proof. split; reflexivity. Qed.

Lemma C2_reserved_type_throws_witness :
  onData no_json [x68]
    [x69; x57; x49; x50; x43; x04; x01; x00; x00; x00; x2a; x0a]
  = Some (mkRun [x0a] [onPassthrough [x68; x69]]
            (Some (UnknownFrameType 4))).
Proof.
  apply (C2_reserved_type_throws no_json [x68] _ [x68; x69] 4 [x2a]
           [x57; x49; x50; x43; x04; x01; x00; x00; x00; x2a] [x0a]).
  - lia.
  - reflexivity.
  - reflexivity.
  - reflexivity.
Defined.

Lemma C6_resync_witness :
  onData no_json [] ([x68; x69; x0a] ++ frame_x)
  = Some (mkRun [] [onPassthrough [x68; x69; x0a]; onDataMessage [x78]] None).
Proof.
  apply (C6_resync no_json [x68; x69; x0a]).
  - discriminate.
  - reflexivity.
Defined.

(** Two bytes, then a DATA frame whose payload is the magic itself,
    then a second frame: the bytes are passed through and both frames
    are dispatched. *)
Lemma C7_frame_consumed_witness :
  len [x57; x49; x50; x43; x03; x04; x00; x00; x00; x57; x49; x50; x43] = 13
  /\ onData no_json [x68; x69; x57; x49]
       ([x50; x43; x03; x04; x00; x00; x00; x57; x49; x50; x43] ++ frame_x)
     = Some (mkRun []
               [onPassthrough [x68; x69];
                onDataMessage [x57; x49; x50; x43]; onDataMessage [x78]]
               None).
Proof.
  apply (C7_frame_consumed no_json [x68; x69; x57; x49] _ [x68; x69] 3
           [x57; x49; x50; x43]
           [x57; x49; x50; x43; x03; x04; x00; x00; x00; x57; x49; x50; x43]
           frame_x).
  - reflexivity.
  - reflexivity.
  - reflexivity.
Defined.

(** C8 fails as stated: after a header that declares [0xFFFFFFFF] bytes
    of payload, two chunks of sixteen bytes are added to the accumulator
    like any others; nothing is thrown, and the channel goes on
    waiting. *)
Lemma C8_oversized_length_is_buffered :
  feed no_json []
    [[x57; x49; x50; x43; x03; xff; xff; xff; xff];
     repeat x00 16; repeat x00 16]
  = Some (mkRun
            ([x57; x49; x50; x43; x03; xff; xff; xff; xff]
             ++ repeat x00 32)
            [] None).
Proof. reflexivity. Qed.

Lemma C8_incomplete_frame_is_buffered_witness :
  onData no_json [x57; x49; x50; x43; x03; xff; xff; xff; xff] [x00; x01]
  = Some (mkRun [x57; x49; x50; x43; x03; xff; xff; xff; xff; x00; x01]
            [] None).
Proof.
  apply (C8_incomplete_frame_is_buffered no_json
           [x57; x49; x50; x43; x03; xff; xff; xff; xff] [x00; x01]).
  - reflexivity.
  - right. reflexivity.
Defined.

Lemma C10_accumulator_settled_witness :
  onData no_json [] [x68; x69; x57; x49; x50; x43; x03]
  = Some (mkRun [x57; x49; x50; x43; x03] [onPassthrough [x68; x69]] None)
  /\ (exists rest, [x57; x49; x50; x43; x03] = MAGIC ++ rest)
  /\ len [x57; x49; x50; x43; x03] < 9
  /\ [x68; x69] <> [].
Proof.
  destruct (C10_accumulator_settled no_json []
              [x68; x69; x57; x49; x50; x43; x03]) as (r & Hr & Hb & Hc).
  change (Some (mkRun [x57; x49; x50; x43; x03]
                  [@onPassthrough Empty_set [x68; x69]] None) = Some r)
    in Hr.
  injection Hr as <-. split; [reflexivity|].
  destruct (Hb eq_refl) as [Hnil|[Hm _]]; [discriminate Hnil|].
  split; [exact Hm|]. split; [reflexivity|].
  apply Hc. left. reflexivity.
Defined.

(** * Further properties of the host channel *)

Lemma starts_with_firstn (needle b : bytes) (k : nat) :
  starts_with needle (firstn k b) = true -> starts_with needle b = true.
Proof.
  revert b k. induction needle as [|n needle IH]; intros b k H;
    [reflexivity|].
  destruct k as [|k]; [discriminate H|].
  destruct b as [|x b]; [discriminate H|].
  cbn [firstn starts_with] in *.
  apply andb_prop in H as [E H]. rewrite E. cbn [andb]. now apply (IH b k).
Qed.

Lemma indexOf_before_first (b : bytes) :
  0 <= indexOf b MAGIC ->
  indexOf (subarray b 0 (indexOf b MAGIC)) MAGIC = -1.
Proof.
  unfold subarray. cbn [Z.to_nat skipn]. rewrite Z.sub_0_r.
  induction b as [|x b IH]; cbn [indexOf].
  - destruct (starts_with MAGIC []); reflexivity.
  - destruct (starts_with MAGIC (x :: b)) eqn:E; [reflexivity|].
    pose proof (indexOf_bounds b MAGIC) as Hb.
    destruct (indexOf b MAGIC =? -1) eqn:En; [lia|].
    apply Z.eqb_neq in En. intros _.
    replace (Z.to_nat (indexOf b MAGIC + 1))
      with (S (Z.to_nat (indexOf b MAGIC))) by lia.
    cbn [firstn indexOf]. rewrite IH by lia.
    destruct (starts_with MAGIC (x :: firstn (Z.to_nat (indexOf b MAGIC)) b))
      eqn:Es; [|reflexivity].
    apply (starts_with_firstn MAGIC (x :: b) (S (Z.to_nat (indexOf b MAGIC))))
      in Es. congruence.
Qed.

Lemma Z_to_byte_of (z : Z) (b : byte) :
  z mod 256 = byte_to_Z b -> Z_to_byte z = b.
Proof.
  intros H. unfold Z_to_byte. rewrite H. unfold byte_to_Z.
  now rewrite N2Z.id, Byte.of_to_N.
Qed.

Lemma le32_load (b0 b1 b2 b3 : byte) :
  le32 (byte_to_Z b0 + byte_to_Z b1 * 256 + byte_to_Z b2 * 65536
        + byte_to_Z b3 * 16777216)
  = [b0; b1; b2; b3].
Proof.
  pose proof (byte_to_Z_range b0). pose proof (byte_to_Z_range b1).
  pose proof (byte_to_Z_range b2). pose proof (byte_to_Z_range b3).
  unfold le32. rewrite !Z.shiftr_div_pow2 by lia.
  change (2 ^ 8) with 256. change (2 ^ 16) with 65536.
  change (2 ^ 24) with 16777216.
  repeat f_equal; apply Z_to_byte_of; Z.div_mod_to_equations; lia.
Qed.

Section HostMore.

Context {json : Type} (JSON_parse : bytes -> option json).

Ltac pass_cases b :=
  unfold iterate, HEADER_SIZE; cbv zeta; fold (at_magic b);
  destruct (len b =? 0) eqn:Eempty;
  [|destruct (indexOf b MAGIC =? -1) eqn:Eidx;
    [|destruct (len (at_magic b) <? 9) eqn:Ehdr;
      [|destruct (len (at_magic b) <? 9 + readUInt32LE (at_magic b) 5)
          eqn:Eframe;
        [|destruct (handleFrame JSON_parse (readUInt8 (at_magic b) 4)
                     (subarray (at_magic b) 9
                        (9 + readUInt32LE (at_magic b) 5))) eqn:Ecall]]]].

Lemma before_magic_clear (b d : bytes) :
  indexOf b MAGIC <> -1 ->
  In (onPassthrough d)
     (if indexOf b MAGIC >? 0
      then [@onPassthrough json (subarray b 0 (indexOf b MAGIC))] else []) ->
  indexOf d MAGIC = -1.
Proof.
  intros Hi Hin. pose proof (indexOf_bounds b MAGIC).
  destruct (indexOf b MAGIC >? 0); [|destruct Hin].
  destruct Hin as [Hin|[]]. injection Hin as <-.
  apply indexOf_before_first. lia.
Qed.

Lemma iterate_clear (b : bytes) :
  match iterate JSON_parse b with
  | Return r => forall d, In (onPassthrough d) (calls r) -> indexOf d MAGIC = -1
  | Continue cs _ => forall d, In (onPassthrough d) cs -> indexOf d MAGIC = -1
  end.
Proof.
  pass_cases b; cbn [calls]; intros d Hin.
  - destruct Hin.
  - destruct Hin as [Hin|[]]. injection Hin as <-. now apply Z.eqb_eq.
  - apply Z.eqb_neq in Eidx. now apply (before_magic_clear b).
  - apply Z.eqb_neq in Eidx. now apply (before_magic_clear b).
  - apply Z.eqb_neq in Eidx. apply in_app_or in Hin as [Hin|[Hin|[]]].
    + now apply (before_magic_clear b).
    + subst a. now apply handleFrame_no_passthrough in Ecall.
  - apply Z.eqb_neq in Eidx. now apply (before_magic_clear b).
Qed.

Lemma onData_loop_clear (fuel : nat) (b : bytes) (r : run json) :
  onData_loop JSON_parse fuel b = Some r ->
  forall d, In (onPassthrough d) (calls r) -> indexOf d MAGIC = -1.
Proof.
  revert b r. induction fuel as [|fuel IH]; intros b r H; [discriminate|].
  cbn [onData_loop] in H. pose proof (iterate_clear b) as Hi.
  destruct (iterate JSON_parse b) as [r0|cs b'].
  - injection H as <-. exact Hi.
  - destruct (onData_loop JSON_parse fuel b') as [r1|] eqn:E; [|discriminate].
    injection H as <-. cbn [after calls].
    intros d Hin. apply in_app_or in Hin as [Hin|Hin]; eauto.
Qed.

(** X1: no passthrough run holds the magic. *)
Theorem passthrough_holds_no_magic (held chunk : bytes) :
  exists r,
    onData JSON_parse held chunk = Some r
    /\ forall d, In (onPassthrough d) (calls r) -> indexOf d MAGIC = -1.
Proof.
  destruct (onData_returns JSON_parse held chunk) as [r H]. exists r.
  split; [exact H|]. now apply (onData_loop_clear _ _ _ H).
Qed.


(** ** A call that returned has nothing left to do *)

(** X2: after a call that returned, an empty chunk changes nothing. *)
Theorem empty_chunk_after_return (held chunk : bytes) (r : run json) :
  onData JSON_parse held chunk = Some r ->
  thrown r = None ->
  onData JSON_parse (buffer r) [] = Some (mkRun (buffer r) [] None).
Proof.
  intros H Ht. apply onData_loop_waits in H; [|exact Ht].
  change (onData JSON_parse (buffer r) [])
    with (onData JSON_parse [] (buffer r ++ [])).
  rewrite app_nil_r.
  destruct H as [->|[Hs Hw]]; [reflexivity|].
  rewrite onData_unfold, iterate_waiting by assumption. reflexivity.
Qed.

(** ** Frames in one chunk, and a frame in two *)

(** X3: frames written by [send] one after the other and received in one
    chunk are dispatched in order, and nothing is left. *)
Theorem frames_in_one_chunk
  (fs : list (Z * bytes)) (ws : list bytes) (cs : list (callback json)) :
  Forall2 (fun f w => send (fst f) (Some (snd f)) = Returns w) fs ws ->
  Forall2 (fun f c => handleFrame JSON_parse (fst f) (snd f) = Returns c)
    fs cs ->
  onData JSON_parse [] (concat ws) = Some (mkRun [] cs None).
Proof.
  intros Hw. revert cs.
  induction Hw as [|f w fs ws Hf Hw IH]; intros cs Hc.
  - inversion Hc. reflexivity.
  - inversion Hc as [|f' c fs' cs' Hfc Hcs]; subst.
    cbn [concat].
    rewrite (onData_frame JSON_parse [] (w ++ concat ws) (fst f) (snd f) w
               (concat ws) Hf eq_refl).
    rewrite Hfc, (IH _ Hcs). reflexivity.
Qed.

Lemma load_u32_firstn (b : bytes) (k : nat) :
  (9 <= k)%nat -> load_u32 (firstn k b) 5 = load_u32 b 5.
Proof.
  intros Hk. unfold load_u32, load_u8. rewrite !nth_firstn.
  cbn [Nat.add].
  destruct (Nat.ltb_spec 5 k); [|lia]. destruct (Nat.ltb_spec 6 k); [|lia].
  destruct (Nat.ltb_spec 7 k); [|lia]. destruct (Nat.ltb_spec 8 k); [|lia].
  reflexivity.
Qed.

(** X4: a frame cut in two anywhere after its magic gives the same as
    the frame in one chunk. *)
Theorem frame_split_after_magic
  (type : Z) (payload w rest : bytes) (k : Z) :
  send type (Some payload) = Returns w ->
  4 <= k < len w ->
  feed JSON_parse []
    [subarray (w ++ rest) 0 k; subarray_from (w ++ rest) k]
  = onData JSON_parse [] (w ++ rest).
Proof.
  intros Hw Hk. pose proof Hw as Hs.
  apply send_bytes in Hs as (Ht & Hl & Ew).
  pose proof (len_nonneg payload) as H0.
  set (b := w ++ rest) in *.
  assert (Elw : len w = 9 + len payload).
  { rewrite Ew. unfold len. rewrite length_app. simpl length.
    rewrite ?length_app. simpl length. lia. }
  assert (Elb : len b = len w + len rest) by apply len_app.
  pose proof (len_nonneg rest) as Hr0.
  unfold subarray, subarray_from. cbn [Z.to_nat skipn]. rewrite Z.sub_0_r.
  set (n := Z.to_nat k).
  assert (Hn : (4 <= n)%nat) by lia.
  assert (Hlen : length (firstn n b) = n).
  { rewrite length_firstn. unfold len in *. lia. }
  assert (Hmag : starts_with MAGIC (firstn n b) = true).
  { unfold b. rewrite Ew.
    do 4 (destruct n as [|n]; [lia|]). reflexivity. }
  assert (Hwait : len (firstn n b) < 9
                  \/ len (firstn n b) < 9 + readUInt32LE (firstn n b) 5).
  { destruct (Z_lt_le_dec k 9) as [Hk9|Hk9]; [left; unfold len; lia|].
    right. unfold readUInt32LE. rewrite load_u32_firstn by lia.
    replace (load_u32 b 5) with (len payload).
    - unfold len in *. lia.
    - unfold b. rewrite Ew. symmetry. apply le32_value. lia. }
  cbn [feed].
  change (onData JSON_parse [] (firstn n b))
    with (onData JSON_parse [] ([] ++ firstn n b)).
  cbn [app]. rewrite onData_unfold, iterate_waiting by assumption.
  cbn [thrown buffer calls].
  change (onData JSON_parse (firstn n b) (skipn n b))
    with (onData JSON_parse [] (firstn n b ++ skipn n b)).
  rewrite firstn_skipn.
  destruct (onData JSON_parse [] b) as [[buf cs [e|]]|];
    cbn [option_map thrown buffer calls feed]; try reflexivity.
  unfold after. cbn [buffer calls thrown app]. rewrite app_nil_r.
  reflexivity.
Qed.


(** ** What a dispatched frame was on the wire *)

(** X5: whenever a pass of the loop dispatches a frame, the accumulator
    was bytes without the magic, then the bytes [send] writes for that
    frame, then what the pass leaves; the bytes ahead were passed
    through. *)
Theorem dispatched_frame_was_sent
  (b : bytes) (cs : list (callback json)) (b' : bytes) :
  iterate JSON_parse b = Continue cs b' ->
  exists garbage type payload w c,
    b = garbage ++ w ++ b'
    /\ indexOf garbage MAGIC = -1
    /\ send type (Some payload) = Returns w
    /\ len w = 9 + len payload
    /\ handleFrame JSON_parse type payload = Returns c
    /\ cs = match garbage with
            | [] => []
            | _ :: _ => [onPassthrough garbage]
            end ++ [c].
Proof.
  pass_cases b; try discriminate. intros H.
  apply Z.eqb_neq in Eidx. apply Z.ltb_ge in Ehdr, Eframe.
  pose proof (indexOf_bounds b MAGIC) as Hb.
  pose proof (at_magic_starts b Eidx) as Hs.
  apply starts_with_inv in Hs as [r1 Ea].
  pose proof (load_u32_range (at_magic b) 5 :
                0 <= readUInt32LE (at_magic b) 5 < 4294967296) as Hr.
  set (L := readUInt32LE (at_magic b) 5) in *.
  assert (Hl1 : 5 + L <= len r1).
  { rewrite Ea in Eframe. unfold len in *. rewrite length_app in Eframe.
    simpl length in Eframe. lia. }
  destruct r1 as [|tb [|l0 [|l1 [|l2 [|l3 r2]]]]];
    try (unfold len in Hl1; simpl length in Hl1; lia).
  assert (HL : L = byte_to_Z l0 + byte_to_Z l1 * 256 + byte_to_Z l2 * 65536
                   + byte_to_Z l3 * 16777216).
  { unfold L. rewrite Ea. reflexivity. }
  assert (Hl2 : L <= len r2) by (unfold len in *; simpl length in Hl1; lia).
  set (payload := firstn (Z.to_nat L) r2).
  assert (Hlp : len payload = L).
  { unfold payload, len in *. rewrite length_firstn. lia. }
  assert (Ep : subarray (at_magic b) 9 (9 + L) = payload).
  { unfold subarray. rewrite Ea.
    replace (Z.to_nat (9 + L - 9)) with (Z.to_nat L) by lia. reflexivity. }
  assert (Eb' : subarray_from (at_magic b) (9 + L) = skipn (Z.to_nat L) r2).
  { unfold subarray_from. rewrite Ea.
    replace (Z.to_nat (9 + L)) with (9 + Z.to_nat L)%nat by lia.
    reflexivity. }
  assert (Et : readUInt8 (at_magic b) 4 = byte_to_Z tb)
    by (rewrite Ea; reflexivity).
  rewrite Ep, Et in Ecall.
  set (garbage := if indexOf b MAGIC >? 0
                  then subarray b 0 (indexOf b MAGIC) else []).
  exists garbage, (byte_to_Z tb), payload,
    (MAGIC ++ tb :: [l0; l1; l2; l3] ++ payload), a.
  pose proof (byte_to_Z_range tb) as Htb.
  repeat split.
  - assert (E : b = garbage ++ at_magic b).
    { unfold garbage, at_magic, subarray, subarray_from.
      destruct (indexOf b MAGIC >? 0); [|reflexivity].
      cbn [Z.to_nat skipn]. rewrite Z.sub_0_r.
      symmetry. apply firstn_skipn. }
    rewrite E at 1. f_equal. rewrite Ea.
    assert (b' = skipn (Z.to_nat L) r2) as -> by congruence.
    cbn [app]. rewrite <- !app_assoc. cbn [app].
    do 9 f_equal. symmetry. apply firstn_skipn.
  - unfold garbage. destruct (indexOf b MAGIC >? 0) eqn:E; [|reflexivity].
    apply indexOf_before_first. lia.
  - unfold send.
    destruct ((byte_to_Z tb <? 0) || (255 <? byte_to_Z tb)) eqn:E1.
    { apply orb_true_iff in E1 as [E|E]; apply Z.ltb_lt in E; lia. }
    destruct ((len payload <? 0) || (4294967295 <? len payload)) eqn:E2.
    { apply orb_true_iff in E2 as [E|E]; apply Z.ltb_lt in E; lia. }
    rewrite Hlp, HL, le32_load, (Z_to_byte_of _ tb)
      by (apply Z.mod_small; lia).
    reflexivity.
  - unfold len in *. rewrite length_app. simpl length.
    fold (length payload). lia.
  - exact Ecall.
  - assert (cs = (if indexOf b MAGIC >? 0
                  then [onPassthrough (subarray b 0 (indexOf b MAGIC))]
                  else []) ++ [a]) as -> by congruence.
    unfold garbage. destruct (indexOf b MAGIC >? 0) eqn:E; [|reflexivity].
    destruct (subarray b 0 (indexOf b MAGIC)) eqn:Eg; [|reflexivity].
    exfalso. apply (f_equal (@length byte)) in Eg.
    rewrite Z.gtb_ltb in E. apply Z.ltb_lt in E.
    unfold subarray, len in *. cbn [skipn Z.to_nat length] in Eg.
    rewrite length_firstn in Eg. lia.
Qed.

End HostMore.

(** * The frame helpers of the test suite, and the two codecs together *)

Lemma equals_eq (a b : bytes) : Tests.equals a b = true <-> a = b.
Proof.
  revert b. induction a as [|x a IH]; intros [|y b]; cbn [Tests.equals];
    try (split; [discriminate | discriminate]); [tauto|].
  rewrite andb_true_iff, IH. split.
  - intros [E ->]. apply Byte.byte_dec_bl in E. now subst.
  - intros H. injection H as -> ->. split; [now apply Byte.byte_dec_lb|auto].
Qed.

Lemma buildFrame_send (type : Z) (payload : option bytes) :
  Tests.buildFrame type payload = send type payload.
Proof. reflexivity. Qed.

(** X6: [parseFrame] gives back the type and the payload of a frame that
    [buildFrame] made, whatever follows the frame. *)
Theorem parseFrame_buildFrame (type : Z) (payload w extra : bytes) :
  Tests.buildFrame type (Some payload) = Returns w ->
  Tests.parseFrame (w ++ extra) = Some (type, payload).
Proof.
  rewrite buildFrame_send. intros Hw.
  apply send_bytes in Hw as (Ht & Hl & ->).
  pose proof (len_nonneg payload) as H0.
  set (b := (MAGIC ++ Z_to_byte type :: le32 (len payload) ++ payload)
            ++ extra).
  assert (Elen : len b = 9 + len payload + len extra).
  { unfold b, len. rewrite !length_app. simpl length.
    rewrite ?length_app. simpl length. lia. }
  pose proof (len_nonneg extra) as He.
  assert (El : readUInt32LE b 5 = len payload) by (apply le32_value; lia).
  assert (Et : readUInt8 b 4 = type).
  { change (readUInt8 b 4) with (byte_to_Z (Z_to_byte type)).
    rewrite byte_to_Z_to_byte. apply Z.mod_small. lia. }
  unfold Tests.parseFrame, HEADER_SIZE. rewrite El, Et, Elen.
  destruct (9 + len payload + len extra <? 9) eqn:E1;
    [apply Z.ltb_lt in E1; lia|].
  change (Tests.equals (subarray b 0 4) MAGIC) with true. cbn [negb].
  destruct (9 + len payload + len extra <? 9 + len payload) eqn:E2;
    [apply Z.ltb_lt in E2; lia|].
  f_equal. f_equal. unfold subarray.
  replace (Z.to_nat (9 + len payload - 9)) with (length payload)
    by (unfold len; lia).
  change (skipn (Z.to_nat 9) b) with (payload ++ extra).
  rewrite firstn_app, firstn_all, Nat.sub_diag, app_nil_r. reflexivity.
Qed.

Lemma parseFrame_magic (data : bytes) :
  9 <= len data ->
  Tests.equals (subarray data 0 4) MAGIC = true <-> firstn 4 data = Guest.MAGIC.
Proof.
  intros _. rewrite equals_eq. unfold subarray. cbn [Z.to_nat skipn].
  change (Z.to_nat (4 - 0)) with 4%nat. reflexivity.
Qed.

(** X7: on a buffer whose length field does not make [HEADER_SIZE + len]
    wrap around, the guest's [decode] and the test suite's [parseFrame]
    give the same answer. *)
Theorem decode_agrees_with_parseFrame (data : bytes) :
  len data < Guest.OBJECT_MAXSIZE ->
  load_u32 data 5 <= 4294967286 ->
  Guest.decode data
  = Returns (option_map (fun tp => Guest.mkFrame (fst tp) (snd tp))
               (Tests.parseFrame data)).
Proof.
  intros Hobj Hl.
  assert (Hmax : len data <= 2147483647)
    by (unfold Guest.OBJECT_MAXSIZE in Hobj; lia).
  unfold Tests.parseFrame, HEADER_SIZE.
  destruct (len data <? 9) eqn:E9.
  { apply Z.ltb_lt in E9. now apply decode_short. }
  apply Z.ltb_ge in E9.
  destruct (Tests.equals (subarray data 0 4) MAGIC) eqn:Em; cbn [negb].
  - apply parseFrame_magic in Em; [|exact E9].
    unfold readUInt32LE, readUInt8.
    destruct (len data <? 9 + load_u32 data 5) eqn:Ef.
    + apply Z.ltb_lt in Ef. now apply decode_partial.
    + apply Z.ltb_ge in Ef. apply decode_frame; try assumption. lia.
  - apply decode_bad_magic; try assumption.
    intros Hm. apply parseFrame_magic in Hm; [|exact E9]. congruence.
Qed.

(** X8: on a header whose length field is within nine of [2^32], [decode]
    throws, where [parseFrame] returns [null]. *)
Theorem decode_throws_on_wrapped_length (data : bytes) :
  9 <= len data <= 2147483647 ->
  firstn 4 data = Guest.MAGIC ->
  4294967287 <= load_u32 data 5 ->
  Guest.decode data = Throws Guest.RangeError
  /\ Tests.parseFrame data = None.
Proof.
  intros Hlen Hm Hl. pose proof (load_u32_range data 5) as Hr. split.
  - unfold Guest.decode, Guest.HEADER_SIZE, Guest.new_Uint8Array,
      Guest.new_ArrayBuffer, Guest.BLOCK_MAXSIZE.
    rewrite magic_check by assumption.
    rewrite (u32_small (len data)) by lia.
    destruct (len data <? 9) eqn:E9; [apply Z.ltb_lt in E9; lia|].
    cbn [orb negb].
    assert (Ew : u32 (9 + load_u32 data 5) = 9 + load_u32 data 5 - 4294967296).
    { unfold u32. Z.div_mod_to_equations. lia. }
    rewrite Ew.
    destruct (len data <? 9 + load_u32 data 5 - 4294967296) eqn:E;
      [apply Z.ltb_lt in E; lia|].
    assert (Ei : u32 (i32 (load_u32 data 5)) = load_u32 data 5).
    { unfold u32, i32. Z.div_mod_to_equations. lia. }
    rewrite Ei.
    destruct (1073741820 <? load_u32 data 5) eqn:En;
      [reflexivity | apply Z.ltb_ge in En; lia].
  - unfold Tests.parseFrame, HEADER_SIZE, readUInt32LE.
    destruct (len data <? 9); [reflexivity|].
    destruct (negb _); [reflexivity|].
    destruct (len data <? 9 + load_u32 data 5) eqn:E; [reflexivity|].
    apply Z.ltb_ge in E. lia.
Qed.

(** X9: the guest's [encode] and the host's [send] write the same bytes. *)
Theorem encode_writes_what_send_writes (type : Z) (payload : bytes) :
  0 <= type <= 255 ->
  len payload <= 1073741794 ->
  exists w,
    Guest.encode type (Some payload) = Returns w
    /\ send type (Some payload) = Returns w
    /\ len w = 9 + len payload.
Proof.
  intros Ht Hl. pose proof (len_nonneg payload) as H0.
  exists ([x57; x49; x50; x43; Z_to_byte type] ++ le32 (len payload)
          ++ payload).
  split; [now apply encode_bytes|]. split.
  - unfold send.
    destruct ((type <? 0) || (255 <? type)) eqn:E1.
    { apply orb_true_iff in E1 as [E|E]; apply Z.ltb_lt in E; lia. }
    destruct ((len payload <? 0) || (4294967295 <? len payload)) eqn:E2.
    { apply orb_true_iff in E2 as [E|E]; apply Z.ltb_lt in E; lia. }
    reflexivity.
  - unfold len. rewrite length_app. simpl length. rewrite ?length_app.
    simpl length. lia.
Qed.


Import GuestIO.

(** * Reading frames in the guest *)

Lemma store_bytes_twice (x y buf : bytes) (off : nat) :
  store_bytes (store_bytes buf off x) (off + length x) y
  = store_bytes buf off (x ++ y).
Proof.
  revert buf off. induction x as [|a x IH]; intros buf off; cbn [store_bytes app length].
  - now rewrite Nat.add_0_r.
  - rewrite <- IH. f_equal. lia.
Qed.

Lemma clean_chunk (s : stdin) (a : byte) (rest : bytes) :
  clean s = true -> pending s = a :: rest ->
  exists d s0, s = Chunk d :: s0 /\ d <> [] /\ clean s0 = true.
Proof.
  intros Hc Hp. destruct s as [|[d|e] s0]; try discriminate.
  destruct d as [|x d]; [discriminate|].
  exists (x :: d), s0. repeat split; [discriminate | exact Hc].
Qed.

Lemma readExact_loop_reads (fuel : nat) :
  forall (s : stdin) (buffer : bytes) (pos : Z) (pre post : bytes),
  clean s = true -> pending s = pre ++ post -> 0 <= pos ->
  (length pre <= fuel)%nat ->
  exists s',
    readExact_loop fuel buffer pos (len pre) s
    = Some (Returns ((true, store_bytes buffer (Z.to_nat pos) pre), s'))
    /\ clean s' = true /\ pending s' = post.
Proof.
  induction fuel as [|fuel IH]; intros s buffer pos pre post Hc Hp Hpos Hf.
  - destruct pre; [|simpl in Hf; lia]. exists s. now repeat split.
  - destruct pre as [|a pre].
    { exists s. now repeat split. }
    destruct (clean_chunk s a (pre ++ post) Hc Hp) as (d & s0 & -> & Hd & Hc0).
    cbn [pending] in Hp.
    set (n := length (a :: pre)) in *.
    set (g := firstn n d).
    assert (Hg : (1 <= length g <= n)%nat).
    { unfold g. rewrite length_firstn. destruct d; [contradiction|].
      unfold n. simpl length. lia. }
    assert (Hgd : d = g ++ skipn n d) by (symmetry; apply firstn_skipn).
    assert (Hgp : g = firstn (length g) (a :: pre)).
    { assert (E : firstn (length g) (d ++ pending s0)
                  = firstn (length g) ((a :: pre) ++ post)) by now rewrite Hp.
      rewrite firstn_app in E.
      replace (length g - length d)%nat with 0%nat in E
        by (unfold g; rewrite length_firstn; lia).
      rewrite firstn_O, app_nil_r in E.
      rewrite (firstn_app _ (a :: pre)) in E.
      replace (length g - length (a :: pre))%nat with 0%nat in E
        by (fold n; lia).
      rewrite firstn_O, app_nil_r in E. rewrite <- E.
      unfold g. rewrite length_firstn.
      destruct (Nat.le_gt_cases n (length d)) as [Hle|Hgt].
      - now rewrite Nat.min_l by lia.
      - rewrite Nat.min_r by lia. now rewrite firstn_all, firstn_all2 by lia. }
    set (pre' := skipn (length g) (a :: pre)).
    assert (Hpre : a :: pre = g ++ pre').
    { rewrite Hgp at 1. apply eq_sym, firstn_skipn. }
    assert (Hrest : skipn n d ++ pending s0 = pre' ++ post).
    { apply (app_inv_head g). rewrite !app_assoc, <- Hgd, <- Hpre. exact Hp. }
    assert (Hlen : len (a :: pre) = len g + len pre').
    { rewrite Hpre at 1. apply len_app. }
    cbn [readExact_loop].
    destruct (len (a :: pre) >? 0) eqn:Epos;
      [|rewrite Z.gtb_ltb in Epos; apply Z.ltb_ge in Epos;
        unfold len in Epos; simpl length in Epos; lia].
    unfold fd_read.
    replace (Z.to_nat (len (a :: pre))) with n by (unfold len, n; lia).
    fold g. change (negb (SUCCESS =? SUCCESS)) with false. cbv iota.
    destruct (len g =? 0) eqn:E0;
      [apply Z.eqb_eq in E0; unfold len in E0; lia|].
    replace (len (a :: pre) - len g) with (len pre') by lia.
    destruct (IH (match skipn n d with [] => s0 | unread => Chunk unread :: s0 end)
                (store_bytes buffer (Z.to_nat pos) g) (pos + len g) pre' post)
      as (s' & E & Hc' & Hp').
    + destruct (skipn n d); [exact Hc0 | exact Hc0].
    + rewrite <- Hrest. destruct (skipn n d); reflexivity.
    + unfold len. lia.
    + assert (length (a :: pre) = length g + length pre')%nat
        by (rewrite Hpre at 1; apply length_app).
      fold n in H. lia.
    + exists s'. split; [|now split]. etransitivity; [exact E|].
      replace (Z.to_nat (pos + len g)) with (Z.to_nat pos + length g)%nat
        by (unfold len; lia).
      rewrite store_bytes_twice, <- Hpre. reflexivity.
Qed.

Lemma readExact_reads (s : stdin) (buffer : bytes) (offset : Z)
  (pre post : bytes) :
  clean s = true -> pending s = pre ++ post -> 0 <= offset ->
  exists s',
    readExact buffer offset (len pre) s
    = Some (Returns ((true, store_bytes buffer (Z.to_nat offset) pre), s'))
    /\ clean s' = true /\ pending s' = post.
Proof.
  intros Hc Hp Ho. unfold readExact. apply readExact_loop_reads; try assumption.
  unfold len. lia.
Qed.




Lemma readExact_reads_at (s : stdin) (buffer : bytes) (off : nat)
  (pre post : bytes) :
  clean s = true -> pending s = pre ++ post ->
  exists s',
    readExact buffer (Z.of_nat off) (len pre) s
    = Some (Returns ((true, store_bytes buffer off pre), s'))
    /\ clean s' = true /\ pending s' = post.
Proof.
  intros Hc Hp.
  destruct (readExact_reads s buffer (Z.of_nat off) pre post Hc Hp
              ltac:(lia)) as (s' & E & H).
  rewrite Nat2Z.id in E. now exists s'.
Qed.

Lemma list9 (hb : bytes) :
  length hb = 9%nat ->
  exists h0 h1 h2 h3 h4 h5 h6 h7 h8,
    hb = [h0; h1; h2; h3; h4; h5; h6; h7; h8].
Proof.
  intros H. do 9 (destruct hb as [|? hb]; [discriminate H|]).
  destruct hb; [|discriminate H]. repeat eexists.
Qed.

Lemma byte_eqb_refl (b : byte) : Byte.eqb b b = true.
Proof. now apply Byte.byte_dec_lb. Qed.

Lemma byte_eqb_neq (a b : byte) : a <> b -> Byte.eqb a b = false.
Proof.
  intros H. destruct (Byte.eqb a b) eqn:E; [|reflexivity].
  apply Byte.byte_dec_bl in E. contradiction.
Qed.

(** A pass that meets a byte other than W drops it and goes round. *)
Lemma readFrame_pass_skip (hb : bytes) (s : stdin) (x : byte) (rest : bytes) :
  length hb = 9%nat -> clean s = true -> pending s = x :: rest ->
  x <> Guest.MAGIC_W ->
  exists hb' s',
    readFrame_pass hb s = Some (Returns (inr hb', s'))
    /\ length hb' = 9%nat /\ clean s' = true /\ pending s' = rest.
Proof.
  intros Hl Hc Hp Hx.
  destruct (list9 hb Hl) as (h0 & h1 & h2 & h3 & h4 & h5 & h6 & h7 & h8 & ->).
  destruct (readExact_reads_at s [h0; h1; h2; h3; h4; h5; h6; h7; h8] 0 [x]
              rest Hc Hp) as (s1 & E1 & Hc1 & Hp1).
  change (len [x]) with 1 in E1. change (Z.of_nat 0) with 0 in E1.
  unfold readFrame_pass, bind. rewrite E1.
  cbn [store_bytes store_u8 negb nth].
  rewrite (byte_eqb_neq _ _ Hx). cbn [negb]. unfold ret.
  eexists _, s1. repeat split; assumption.
Qed.

(** A pass that meets W and then a byte other than I drops both. *)
Lemma readFrame_pass_skip2 (hb : bytes) (s : stdin) (x : byte) (rest : bytes) :
  length hb = 9%nat -> clean s = true ->
  pending s = Guest.MAGIC_W :: x :: rest ->
  x <> Guest.MAGIC_I ->
  exists hb' s',
    readFrame_pass hb s = Some (Returns (inr hb', s'))
    /\ length hb' = 9%nat /\ clean s' = true /\ pending s' = rest.
Proof.
  intros Hl Hc Hp Hx.
  destruct (list9 hb Hl) as (h0 & h1 & h2 & h3 & h4 & h5 & h6 & h7 & h8 & ->).
  destruct (readExact_reads_at s [h0; h1; h2; h3; h4; h5; h6; h7; h8] 0
              [Guest.MAGIC_W] (x :: rest) Hc Hp) as (s1 & E1 & Hc1 & Hp1).
  change (len [Guest.MAGIC_W]) with 1 in E1.
  change (Z.of_nat 0) with 0 in E1.
  unfold readFrame_pass, bind. rewrite E1.
  cbn [store_bytes store_u8 negb nth].
  rewrite byte_eqb_refl. cbn [negb].
  destruct (readExact_reads_at s1
              [Guest.MAGIC_W; h1; h2; h3; h4; h5; h6; h7; h8] 1 [x] rest
              Hc1 Hp1) as (s2 & E2 & Hc2 & Hp2).
  change (len [x]) with 1 in E2. change (Z.of_nat 1) with 1 in E2.
  rewrite E2. cbn [store_bytes store_u8 negb nth].
  rewrite (byte_eqb_neq _ _ Hx). cbn [negb]. unfold ret.
  eexists _, s2. repeat split; assumption.
Qed.

(** A pass at the end of the input returns [null]. *)
Lemma readFrame_pass_eof (hb : bytes) :
  readFrame_pass hb [] = Some (Returns (inl None, [])).
Proof. reflexivity. Qed.


(** A pass over a whole frame returns it. *)
Lemma readFrame_pass_frame
  (hb : bytes) (s : stdin) (tb : byte) (p rest : bytes) :
  length hb = 9%nat -> clean s = true -> len p < Guest.OBJECT_MAXSIZE ->
  pending s
  = [Guest.MAGIC_W; Guest.MAGIC_I; Guest.MAGIC_P; Guest.MAGIC_C; tb]
    ++ le32 (len p) ++ p ++ rest ->
  exists s',
    readFrame_pass hb s
    = Some (Returns (inl (Some (Guest.mkFrame (byte_to_Z tb) p)), s'))
    /\ clean s' = true /\ pending s' = rest.
Proof.
  intros Hl Hc Hmax Hp. pose proof (len_nonneg p) as H0.
  unfold Guest.OBJECT_MAXSIZE in Hmax.
  pose proof (le32_value (len p) ltac:(lia)) as Hv.
  unfold le32 in Hp.
  set (l0 := Z_to_byte (len p)) in *.
  set (l1 := Z_to_byte (Z.shiftr (len p) 8)) in *.
  set (l2 := Z_to_byte (Z.shiftr (len p) 16)) in *.
  set (l3 := Z_to_byte (Z.shiftr (len p) 24)) in *.
  clearbody l0 l1 l2 l3.
  cbn [app] in Hp.
  destruct (list9 hb Hl) as (h0 & h1 & h2 & h3 & h4 & h5 & h6 & h7 & h8 & ->).
  unfold readFrame_pass, bind.
  destruct (readExact_reads_at s [h0; h1; h2; h3; h4; h5; h6; h7; h8] 0
              [Guest.MAGIC_W] _ Hc Hp) as (s1 & E1 & Hc1 & Hp1).
  change (len [Guest.MAGIC_W]) with 1 in E1.
  change (Z.of_nat 0) with 0 in E1.
  rewrite E1. cbn [store_bytes store_u8 negb nth]. rewrite byte_eqb_refl.
  cbn [negb].
  destruct (readExact_reads_at s1
              [Guest.MAGIC_W; h1; h2; h3; h4; h5; h6; h7; h8] 1
              [Guest.MAGIC_I] _ Hc1 Hp1) as (s2 & E2 & Hc2 & Hp2).
  change (len [Guest.MAGIC_I]) with 1 in E2.
  change (Z.of_nat 1) with 1 in E2.
  rewrite E2. cbn [store_bytes store_u8 negb nth]. rewrite byte_eqb_refl.
  cbn [negb].
  destruct (readExact_reads_at s2
              [Guest.MAGIC_W; Guest.MAGIC_I; h2; h3; h4; h5; h6; h7; h8] 2
              [Guest.MAGIC_P] _ Hc2 Hp2) as (s3 & E3 & Hc3 & Hp3).
  change (len [Guest.MAGIC_P]) with 1 in E3.
  change (Z.of_nat 2) with 2 in E3.
  rewrite E3. cbn [store_bytes store_u8 negb nth]. rewrite byte_eqb_refl.
  cbn [negb].
  destruct (readExact_reads_at s3
              [Guest.MAGIC_W; Guest.MAGIC_I; Guest.MAGIC_P; h3; h4; h5; h6;
               h7; h8] 3
              [Guest.MAGIC_C] _ Hc3 Hp3) as (s4 & E4 & Hc4 & Hp4).
  change (len [Guest.MAGIC_C]) with 1 in E4.
  change (Z.of_nat 3) with 3 in E4.
  rewrite E4. cbn [store_bytes store_u8 negb nth]. rewrite byte_eqb_refl.
  cbn [negb].
  destruct (readExact_reads_at s4
              [Guest.MAGIC_W; Guest.MAGIC_I; Guest.MAGIC_P; Guest.MAGIC_C;
               h4; h5; h6; h7; h8] 4
              [tb; l0; l1; l2; l3] (p ++ rest) Hc4 Hp4)
    as (s5 & E5 & Hc5 & Hp5).
  change (len [tb; l0; l1; l2; l3]) with 5 in E5.
  change (Z.of_nat 4) with 4 in E5.
  rewrite E5. cbn [store_bytes store_u8 negb].
  set (hdr := [Guest.MAGIC_W; Guest.MAGIC_I; Guest.MAGIC_P; Guest.MAGIC_C;
               tb; l0; l1; l2; l3]).
  assert (EL : load_u32 hdr 5 = len p).
  { unfold load_u32, load_u8, hdr. cbn [nth Nat.add]. exact Hv. }
  assert (ET : load_u8 hdr 4 = byte_to_Z tb) by reflexivity.
  rewrite EL, ET. clearbody hdr.
  unfold Guest.new_Uint8Array.
  rewrite (i32_small (len p)) by lia.
  rewrite new_ArrayBuffer_returns by (unfold Guest.OBJECT_MAXSIZE; lia).
  destruct (len p >? 0) eqn:Epos.
  - destruct (readExact_reads_at s5 (repeat x00 (Z.to_nat (len p))) 0 p rest
                Hc5 Hp5) as (s6 & E6 & Hc6 & Hp6).
    change (Z.of_nat 0) with 0 in E6. rewrite E6. cbn [negb].
    rewrite store_bytes_all by (rewrite repeat_length; unfold len; lia).
    unfold ret. now exists s6.
  - rewrite Z.gtb_ltb in Epos. apply Z.ltb_ge in Epos.
    assert (p = []) as ->
      by (destruct p; [reflexivity | unfold len in *; simpl length in *; lia]).
    unfold ret. exists s5. now repeat split.
Qed.

Lemma readFrame_unfold (s : stdin) :
  readFrame s = readFrame_loop (S (length (pending s))) (repeat x00 9) s.
Proof. reflexivity. Qed.

Lemma clean_nothing_pending (s : stdin) :
  clean s = true -> pending s = [] -> s = [].
Proof.
  destruct s as [|[[|x d]|e] s]; try discriminate; reflexivity.
Qed.

(** The loop drops bytes until a W. *)
Lemma readFrame_loop_frame (garbage : bytes) :
  forall (fuel : nat) (hb : bytes) (s : stdin) (tb : byte) (p rest : bytes),
  length hb = 9%nat -> clean s = true ->
  Forall (fun b => b <> Guest.MAGIC_W) garbage ->
  len p < Guest.OBJECT_MAXSIZE ->
  pending s
  = garbage
    ++ ([Guest.MAGIC_W; Guest.MAGIC_I; Guest.MAGIC_P; Guest.MAGIC_C; tb]
        ++ le32 (len p) ++ p) ++ rest ->
  (length garbage < fuel)%nat ->
  exists s',
    readFrame_loop fuel hb s
    = Some (Returns (Some (Guest.mkFrame (byte_to_Z tb) p), s'))
    /\ clean s' = true /\ pending s' = rest.
Proof.
  induction garbage as [|x g IH]; intros fuel hb s tb p rest Hl Hc Hg Hp Hs Hf;
    (destruct fuel as [|fuel]; [simpl in Hf; lia|]); cbn [readFrame_loop].
  - cbn [app] in Hs. rewrite <- !app_assoc in Hs. cbn [app] in Hs.
    destruct (readFrame_pass_frame hb s tb p rest Hl Hc Hp Hs)
      as (s' & E & Hc' & Hp').
    exists s'. unfold bind. rewrite E. now repeat split.
  - inversion Hg as [|? ? Hx Hg']; subst.
    destruct (readFrame_pass_skip hb s x _ Hl Hc Hs Hx)
      as (hb' & s1 & E & Hl1 & Hc1 & Hp1).
    destruct (IH fuel hb' s1 tb p rest Hl1 Hc1 Hg' Hp Hp1) as (s' & E' & H');
      [simpl in Hf; lia|].
    exists s'. unfold bind at 1. rewrite E. split; [exact E' | exact H'].
Qed.

Lemma readFrame_loop_no_W (bs : bytes) :
  forall (fuel : nat) (hb : bytes) (s : stdin),
  length hb = 9%nat -> clean s = true ->
  Forall (fun b => b <> Guest.MAGIC_W) bs ->
  pending s = bs -> (length bs < fuel)%nat ->
  readFrame_loop fuel hb s = Some (Returns (None, [])).
Proof.
  induction bs as [|x bs IH]; intros fuel hb s Hl Hc Hg Hs Hf;
    (destruct fuel as [|fuel]; [simpl in Hf; lia|]); cbn [readFrame_loop].
  - rewrite (clean_nothing_pending s Hc Hs). reflexivity.
  - inversion Hg as [|? ? Hx Hg']; subst.
    destruct (readFrame_pass_skip hb s x _ Hl Hc Hs Hx)
      as (hb' & s1 & E & Hl1 & Hc1 & Hp1).
    unfold bind at 1. rewrite E. apply IH; try assumption.
    simpl in Hf. lia.
Qed.

(** A frame behind bytes other than W is read whole. *)
Lemma readFrame_frame
  (s : stdin) (garbage : bytes) (type : Z) (payload w rest : bytes) :
  0 <= type < 256 ->
  len payload <= 1073741794 ->
  writeFrame [] type (Some payload) = Returns w ->
  clean s = true ->
  Forall (fun b => b <> Guest.MAGIC_W) garbage ->
  pending s = garbage ++ w ++ rest ->
  exists s',
    readFrame s = Some (Returns (Some (Guest.mkFrame type payload), s'))
    /\ clean s' = true /\ pending s' = rest.
Proof.
  intros Ht Hp Hw Hc Hg Hs. unfold writeFrame in Hw.
  rewrite encode_bytes in Hw by assumption. cbn [app] in Hw.
  injection Hw as <-.
  rewrite readFrame_unfold.
  destruct (readFrame_loop_frame garbage (S (length (pending s)))
              (repeat x00 9) s (Z_to_byte type) payload rest)
    as (s' & E & H'); try assumption; try reflexivity.
  - unfold Guest.OBJECT_MAXSIZE. lia.
  - rewrite Hs, length_app. lia.
  - exists s'. rewrite E, byte_to_Z_to_byte, Z.mod_small by lia.
    split; [reflexivity | exact H'].
Qed.

(** X13: [readFrame] returns the frame that [writeFrame] wrote, however
    the pipe cut it into chunks and whatever bytes other than W come
    ahead of it, and leaves what follows the frame unread. *)
Theorem readFrame_reads_what_writeFrame_wrote
  (s : stdin) (garbage : bytes) (type : Z) (payload w rest : bytes) :
  0 <= type < 256 ->
  len payload <= 1073741794 ->
  writeFrame [] type (Some payload) = Returns w ->
  clean s = true ->
  Forall (fun b => b <> Guest.MAGIC_W) garbage ->
  pending s = garbage ++ w ++ rest ->
  exists s',
    readFrame s = Some (Returns (Some (Guest.mkFrame type payload), s'))
    /\ clean s' = true /\ pending s' = rest.
Proof. apply readFrame_frame. Qed.

(** X14: a W that is not followed by I is dropped together with the byte
    after it, also when that byte is the W of a frame: with no other W
    in the input, [readFrame] then returns [null] at its end. *)
Theorem readFrame_drops_byte_after_W
  (s : stdin) (x : byte) (tail : bytes) :
  x <> Guest.MAGIC_I ->
  Forall (fun b => b <> Guest.MAGIC_W) tail ->
  clean s = true ->
  pending s = Guest.MAGIC_W :: x :: tail ->
  readFrame s = Some (Returns (None, [])).
Proof.
  intros Hx Hg Hc Hs. rewrite readFrame_unfold. cbn [readFrame_loop].
  destruct (readFrame_pass_skip2 (repeat x00 9) s x tail
              eq_refl Hc Hs Hx) as (hb' & s1 & E & Hl1 & Hc1 & Hp1).
  unfold bind at 1. rewrite E.
  apply (readFrame_loop_no_W tail); try assumption.
  rewrite Hs. simpl length. lia.
Qed.

(** ** The echo responder *)





(** * Concrete runs of the further properties *)

Lemma empty_chunk_after_return_witness :
  onData no_json [x57; x49; x50; x43; x03] []
  = Some (mkRun [x57; x49; x50; x43; x03] [] None).
Proof.
  apply (empty_chunk_after_return no_json []
           [x68; x57; x49; x50; x43; x03]
           (mkRun [x57; x49; x50; x43; x03] [onPassthrough [x68]] None)).
  - reflexivity.
  - reflexivity.
Defined.

Lemma frames_in_one_chunk_witness :
  onData no_json []
    (concat [frame_x; [x57; x49; x50; x43; x00; x00; x00; x00; x00]])
  = Some (mkRun [] [onDataMessage [x78]; onOpen] None).
Proof.
  apply (frames_in_one_chunk no_json [(3, [x78]); (0, [])]).
  - repeat constructor.
  - repeat constructor.
Defined.

Lemma frame_split_after_magic_witness :
  feed no_json []
    [subarray
       ([x57; x49; x50; x43; x03; x02; x00; x00; x00; x68; x69] ++ frame_x)
       0 6;
     subarray_from
       ([x57; x49; x50; x43; x03; x02; x00; x00; x00; x68; x69] ++ frame_x)
       6]
  = onData no_json []
      ([x57; x49; x50; x43; x03; x02; x00; x00; x00; x68; x69] ++ frame_x).
Proof.
  apply (frame_split_after_magic no_json 3 [x68; x69]).
  - reflexivity.
  - split; [lia | reflexivity].
Defined.

Lemma dispatched_frame_was_sent_witness :
  exists garbage type payload w c,
    [x68] ++ frame_x = garbage ++ w ++ []
    /\ indexOf garbage MAGIC = -1
    /\ send type (Some payload) = Returns w
    /\ len w = 9 + len payload
    /\ handleFrame no_json type payload = Returns c
    /\ [onPassthrough [x68]; onDataMessage [x78]]
       = match garbage with
         | [] => []
         | _ :: _ => [onPassthrough garbage]
         end ++ [c].
Proof.
  apply (dispatched_frame_was_sent no_json ([x68] ++ frame_x)).
  reflexivity.
Defined.

Lemma parseFrame_buildFrame_witness :
  Tests.parseFrame
    ([x57; x49; x50; x43; x03; x02; x00; x00; x00; x68; x69] ++ [x21])
  = Some (3, [x68; x69]).
Proof.
  apply (parseFrame_buildFrame 3 [x68; x69]). reflexivity.
Defined.

Lemma decode_agrees_with_parseFrame_witness :
  Guest.decode [x57; x49; x50; x43; x03; x02; x00; x00; x00; x68; x69; x21]
  = Returns
      (option_map (fun tp => Guest.mkFrame (fst tp) (snd tp))
         (Tests.parseFrame
            [x57; x49; x50; x43; x03; x02; x00; x00; x00; x68; x69; x21])).
Proof.
  apply decode_agrees_with_parseFrame.
  - reflexivity.
  - vm_compute. discriminate.
Defined.

Lemma decode_throws_on_wrapped_length_witness :
  Guest.decode [x57; x49; x50; x43; x03; xf7; xff; xff; xff; x68]
  = Throws Guest.RangeError
  /\ Tests.parseFrame [x57; x49; x50; x43; x03; xf7; xff; xff; xff; x68]
     = None.
Proof.
  apply decode_throws_on_wrapped_length.
  - split; vm_compute; discriminate.
  - reflexivity.
  - vm_compute. discriminate.
Defined.

Lemma encode_writes_what_send_writes_witness :
  exists w,
    Guest.encode 3 (Some [x68; x69]) = Returns w
    /\ send 3 (Some [x68; x69]) = Returns w
    /\ len w = 9 + len [x68; x69].
Proof.
  apply encode_writes_what_send_writes.
  - lia.
  - vm_compute. discriminate.
Defined.




Lemma readFrame_reads_what_writeFrame_wrote_witness :
  exists s',
    readFrame
      [Chunk [x0a; x57]; Chunk [x49; x50; x43; x03; x02];
       Chunk [x00; x00; x00; x68]; Chunk [x69; x21]]
    = Some (Returns (Some (Guest.mkFrame 3 [x68; x69]), s'))
    /\ clean s' = true /\ pending s' = [x21].
Proof.
  apply (readFrame_reads_what_writeFrame_wrote _ [x0a] 3 [x68; x69]
           [x57; x49; x50; x43; x03; x02; x00; x00; x00; x68; x69] [x21]).
  - lia.
  - vm_compute. discriminate.
  - reflexivity.
  - reflexivity.
  - repeat constructor. discriminate.
  - reflexivity.
Defined.

(** A stray W right ahead of the frame of [writeFrame(DATA, "hi")]: the
    frame is not found. *)
Lemma readFrame_drops_byte_after_W_witness :
  readFrame
    [Chunk [x57];
     Chunk [x57; x49; x50; x43; x03; x02; x00; x00; x00; x68; x69]]
  = Some (Returns (None, [])).
Proof.
  apply (readFrame_drops_byte_after_W _ x57
           [x49; x50; x43; x03; x02; x00; x00; x00; x68; x69]).
  - discriminate.
  - repeat (constructor; [discriminate|]). constructor.
  - reflexivity.
  - reflexivity.
Defined.


